(** * hunter-sim: combat units ([units.py])

    A shallow embedding of [src/hunter-sim/units.py]: the stat generator
    ([Enemy.fetch_stats], [Boss.fetch_stats]), unit construction
    ([Enemy.__create__]), the combat operations of [Enemy] and [Boss], and
    the part of Python's [heapq] the units use on the shared event queue.

    Number model.  Python [int] is [Z].  Python [float] is modelled by the
    exact rationals [Q]: decimal literals denote the rationals they spell
    ([2.85] is 285/100), [+ - * /] are exact, [//] is the floor of the exact
    quotient.  Rounding is outside this model.  Where the rounding of
    binary64 decides a property, in [heal_hp], module [Binary64] reads the
    same lines on primitive floats.

    Randomness.  [random.random()] reads the next sample of a global
    generator; the generator is an explicit state [Rng].

    Collaborators.  The hunter classes and the simulation driver are not part
    of [units.py].  Calls into the hunter are kept as what they pass
    ([Enemy_attack] returns the arguments of [hunter.receive_damage]) or as
    parameters (the creation hooks); [logging.debug] lines have no effect on
    the state and are left out. *)

From Stdlib Require Import ZArith QArith Qround Lqa Lia String Ascii List Permutation.
From Stdlib Require Floats.
From stdpp Require Import base list.

Local Open Scope Z_scope.
Local Open Scope Q_scope.

(** ** Python built-ins used by the source *)

(** [a < b] on floats. *)
Definition Qltb (a b : Q) : bool := negb (Qle_bool b a).

(** [min(a, b)]: the first argument is kept unless the second is strictly
    smaller. *)
Definition py_min (a b : Q) : Q := if Qltb b a then b else a.

(** [max(a, b)]: the first argument is kept unless the second is strictly
    larger. *)
Definition py_max (a b : Q) : Q := if Qltb a b then b else a.

(** [a // b] on floats, for a non-zero divisor. *)
Definition py_floordiv (a b : Q) : Q := inject_Z (Qfloor (a / b)).

(** Exceptions the source can raise. *)
Inductive exn : Type :=
| ValueError
| IndexError.

Inductive result (A : Type) : Type :=
| Ok (a : A)
| Raise (e : exn).
Arguments Ok {A} a.
Arguments Raise {A} e.

(** [random.random()]: the generator is a sequence of samples and a cursor. *)
Record Rng : Type := mkRng {
  samples : nat -> Q;
  cursor : nat }.

Definition random (g : Rng) : Q * Rng :=
  (samples g (cursor g), mkRng (samples g) (S (cursor g))).

(** ** The hunter (external collaborator)

    Of the hunter the units read its class (for [isinstance]), the keys of
    [talents] and [attributes], and write [total_kills] and [enrage_log]. *)

Inductive hunter_class : Type :=
| Borge
| Ozzy
| OtherHunter.

Record Hunter : Type := mkHunter {
  hunter_cls : hunter_class;
  talents : list string;
  attributes : list string;
  total_kills : Z;
  enrage_log : list Z }.

(** ** Stat generator *)

(** The dict returned by [fetch_stats]. *)
Record Stats : Type := mkStats {
  st_hp : Q;
  st_power : Q;
  st_regen : Q;
  st_special_chance : Q;
  st_special_damage : Q;
  st_damage_reduction : Q;
  st_evade_chance : Q;
  st_speed : Q }.

(** [Enemy.fetch_stats].  Python parses [0.006 + 0.006 * (stage-150) // 50] as
    [0.006 + ((0.006 * (stage-150)) // 50)]: [*] and [//] share one precedence
    level and associate to the left.  A conditional expression binds weaker
    than [+], so [(1 + x if c else 1)] is [((1 + x) if c else 1)]. *)
Definition Enemy_fetch_stats (hunter : Hunter) (stage : Z) : result Stats :=
  match hunter_cls hunter with
  | Borge => Ok {|
      st_hp :=
        inject_Z (9 + (stage * 4))
        * (if (stage >? 100)%Z then 2.85 else 1)
        * (if (stage >=? 150)%Z
           then 1 + (inject_Z (stage / 150) * inject_Z (stage - 149)
                     * (0.006 + py_floordiv (0.006 * inject_Z (stage - 150)) 50))
           else 1);
      st_power :=
        (2.5 + (inject_Z stage * 0.7))
        * (if (stage >? 100)%Z then 2.85 else 1)
        * (if (stage >=? 150)%Z
           then 1 + (inject_Z (stage - 149)
                     * (0.006 + py_floordiv (0.006 * inject_Z (stage - 150)) 50))
           else 1);
      st_regen :=
        (if (stage >? 1)%Z then 0.00 + (inject_Z (stage - 1) * 0.08) else 0)
        * (if (stage >? 100)%Z then 1.052 else 1)
        * (if (stage >=? 150)%Z
           then 1 + (inject_Z (stage - 149)
                     * (0.006 + py_floordiv (0.006 * inject_Z (stage - 150)) 50))
           else 1);
      st_special_chance := 0.0322 + (inject_Z stage * 0.0004);
      st_special_damage := 1.21 + (inject_Z stage * 0.008025);
      st_damage_reduction := 0;
      st_evade_chance := 0 + (if (stage >? 100)%Z then 0.004 else 0);
      st_speed := 4.53 - (inject_Z stage * 0.006) |}
  | Ozzy => Ok {|
      st_hp :=
        inject_Z (11 + (stage * 6))
        * (if (stage >? 100)%Z then 2.9 else 1)
        * (if (stage >=? 150)%Z
           then 1 + (inject_Z (stage / 150) * inject_Z (stage - 149)
                     * (0.006 + py_floordiv (0.006 * inject_Z (stage - 150)) 50))
           else 1);
      st_power :=
        (1.35 + (inject_Z stage * 0.75))
        * (if (stage >? 100)%Z then 2.7 else 1)
        * (if (stage >=? 150)%Z
           then 1 + (inject_Z (stage - 149)
                     * (0.006 + py_floordiv (0.006 * inject_Z (stage - 150)) 50))
           else 1);
      st_regen :=
        (if (stage >? 0)%Z then 0.02 + (inject_Z (stage - 1) * 0.1) else 0)
        * (if (stage >? 100)%Z then 1.25 else 1)
        * (if (stage >=? 150)%Z
           then 1 + (inject_Z (stage - 149)
                     * (0.006 + py_floordiv (0.006 * inject_Z (stage - 150)) 50))
           else 1);
      st_special_chance := 0.0994 + (inject_Z stage * 0.0006);
      st_special_damage := 1.03 + (inject_Z stage * 0.008);
      st_damage_reduction := 0;
      st_evade_chance := 0 + (if (stage >? 100)%Z then 0.01 else 0);
      st_speed := 3.20 - (inject_Z stage * 0.004) |}
  | OtherHunter => Raise ValueError
  end.

(** [Boss.fetch_stats]: a fixed table per hunter class; [stage] is unused. *)
Definition Boss_fetch_stats (hunter : Hunter) (stage : Z) : result Stats :=
  match hunter_cls hunter with
  | Borge => Ok {|
      st_hp := 36810;
      st_power := 263.18;
      st_regen := 15.21;
      st_special_chance := 0.1122;
      st_special_damage := 2.26;
      st_damage_reduction := 0.05;
      st_evade_chance := 0.004;
      st_speed := 9.50 |}
  | Ozzy => Ok {|
      st_hp := 29328;
      st_power := 229.05;
      st_regen := 59.52;
      st_special_chance := 0.3094;
      st_special_damage := 1.83;
      st_damage_reduction := 0.05;
      st_evade_chance := 0.01;
      st_speed := 6.87 |}
  | OtherHunter => Raise ValueError
  end.

(** ** Enemy *)

(** The attributes of an [Enemy] instance.  For a [Boss] the slot [speed]
    holds [_speed], the value stored by the [speed] setter. *)
Record Enemy : Type := mkEnemy {
  name : string;
  hp : Q;
  max_hp : Q;
  power : Q;
  regen : Q;
  damage_reduction : Q;
  evade_chance : Q;
  special_chance : Q;
  special_damage : Q;
  speed : Q;
  stun_duration : Q }.

(** [Enemy.__create__(name, **stats)]. *)
Definition Enemy_create (name : string) (st : Stats) : Enemy := {|
  name := name;
  hp := st_hp st;
  max_hp := st_hp st;
  power := st_power st;
  regen := st_regen st;
  damage_reduction := st_damage_reduction st;
  evade_chance := st_evade_chance st;
  special_chance := py_min (st_special_chance st) 0.25;
  special_damage := py_min (st_special_damage st) 2.5;
  speed := st_speed st;
  stun_duration := 0 |}.

(** [Enemy.on_create]: the hunter's creation hooks, in the order of the
    source, each guarded by a key test on [talents] or [attributes].  The
    hooks themselves belong to the hunter and are parameters here; a hook is
    taken to return.  One that raises ends [__init__] with its exception,
    which this model does not cover. *)
Section Creation.

Variables apply_pog apply_ood apply_snek apply_medusa : Hunter -> Enemy -> Enemy.

(** [key in d] for a dict given by its keys. *)
Definition has_key (key : string) (keys : list string) : bool :=
  existsb (String.eqb key) keys.

Definition Enemy_on_create (hunter : Hunter) (self : Enemy) : Enemy :=
  let self := if has_key "presence_of_god" (talents hunter)
              then apply_pog hunter self else self in
  let self := if has_key "omen_of_defeat" (talents hunter)
              then apply_ood hunter self else self in
  let self := if has_key "soul_of_snek" (attributes hunter)
              then apply_snek hunter self else self in
  let self := if has_key "gift_of_medusa" (attributes hunter)
              then apply_medusa hunter self else self in
  self.

(** [Enemy.__init__]. *)
Definition Enemy_init (name : string) (hunter : Hunter) (stage : Z) : result Enemy :=
  match Enemy_fetch_stats hunter stage with
  | Ok st => Ok (Enemy_on_create hunter (Enemy_create name st))
  | Raise e => Raise e
  end.

End Creation.

(** ** The shared event queue and [heapq]

    The queue is a Python list used as a binary heap.  [heappush] and
    [heapify] follow [Lib/heapq.py]; the comparison [<] of the items is a
    parameter.  Positions are list indices; a read outside the list, which
    the callers never make, leaves the list as it is. *)

(** A scheduling entry [(time, tie_break, kind)]. *)
Definition entry : Type := Q * Z * string.

(** Tuple [==]: componentwise. *)
Definition entry_eqb (a b : entry) : bool :=
  let '(t1, p1, u1) := a in
  let '(t2, p2, u2) := b in
  Qeq_bool t1 t2 && (p1 =? p2)%Z && String.eqb u1 u2.

(** Tuple [<]: the first component on which the tuples differ decides. *)
Definition entry_ltb (a b : entry) : bool :=
  let '(t1, p1, u1) := a in
  let '(t2, p2, u2) := b in
  if negb (Qeq_bool t1 t2) then Qltb t1 t2
  else if negb (p1 =? p2)%Z then (p1 <? p2)%Z
  else String.ltb u1 u2.

Section Heapq.

Context {A : Type} (lt : A -> A -> bool).

(** The loop of [heapq._siftdown]: [newitem] travels from [pos] towards
    [startpos], each larger parent moving one level down.  [pos] at least
    halves per iteration, so [fuel = pos] is never exhausted before the loop
    condition fails (lemma [siftdown_loop_fuel]). *)
Fixpoint _siftdown_loop (fuel : nat) (heap : list A) (startpos pos : nat)
    (newitem : A) : list A :=
  match fuel with
  | O => <[pos := newitem]> heap
  | S fuel' =>
      if (startpos <? pos)%nat then
        let parentpos := ((pos - 1) / 2)%nat in
        match heap !! parentpos with
        | Some parent =>
            if lt newitem parent
            then _siftdown_loop fuel' (<[pos := parent]> heap) startpos parentpos newitem
            else <[pos := newitem]> heap
        | None => <[pos := newitem]> heap
        end
      else <[pos := newitem]> heap
  end.

(** [heapq._siftdown(heap, startpos, pos)], for [pos] inside the list. *)
Definition _siftdown (heap : list A) (startpos pos : nat) : list A :=
  match heap !! pos with
  | Some newitem => _siftdown_loop pos heap startpos pos newitem
  | None => heap
  end.

(** Index of the smaller child, as [_siftup] picks it: the right child when
    it exists and the left one is not smaller. *)
Definition smaller_child (heap : list A) (childpos : nat) : nat :=
  let rightpos := (childpos + 1)%nat in
  match heap !! childpos, heap !! rightpos with
  | Some l, Some r => if negb (lt l r) then rightpos else childpos
  | _, _ => childpos
  end.

(** The first loop of [heapq._siftup]: the smaller child moves up until
    [pos] is a leaf; returns the list and the leaf reached.  [pos] grows per
    iteration, so [fuel = len(heap)] is enough (lemma [siftup_loop_fuel]). *)
Fixpoint _siftup_loop (fuel : nat) (heap : list A) (pos : nat) : list A * nat :=
  match fuel with
  | O => (heap, pos)
  | S fuel' =>
      let childpos := (2 * pos + 1)%nat in
      if (childpos <? length heap)%nat then
        let childpos := smaller_child heap childpos in
        match heap !! childpos with
        | Some child => _siftup_loop fuel' (<[pos := child]> heap) childpos
        | None => (heap, pos)
        end
      else (heap, pos)
  end.

(** [heapq._siftup(heap, pos)]. *)
Definition _siftup (heap : list A) (pos : nat) : list A :=
  match heap !! pos with
  | Some newitem =>
      let '(heap', leaf) := _siftup_loop (length heap) heap pos in
      _siftdown (<[leaf := newitem]> heap') pos leaf
  | None => heap
  end.

(** [heapq.heappush(heap, item)]. *)
Definition heappush (heap : list A) (item : A) : list A :=
  _siftdown (heap ++ [item]) 0 (length heap).

(** [heapq.heapify(x)]: [for i in reversed(range(n//2)): _siftup(x, i)]. *)
Definition heapify (x : list A) : list A :=
  fold_left _siftup (rev (seq 0 (length x / 2))) x.

(** The heap invariant of [heapq]: no entry is smaller than its parent. *)
Definition heap_edge (heap : list A) (child : nat) : bool :=
  match heap !! ((child - 1) / 2)%nat, heap !! child with
  | Some p, Some c => negb (lt c p)
  | _, _ => true
  end.

Definition is_heap (heap : list A) : bool :=
  forallb (heap_edge heap) (seq 1 (length heap - 1)).

(** [list.remove(x)]: drops the first element equal to [x]. *)
Fixpoint list_remove (eqb : A -> A -> bool) (x : A) (l : list A) : result (list A) :=
  match l with
  | [] => Raise ValueError
  | y :: l' =>
      if eqb y x then Ok l'
      else match list_remove eqb x l' with
           | Ok r => Ok (y :: r)
           | Raise e => Raise e
           end
  end.

End Heapq.

(** ** Simulation context *)

Record Sim : Type := mkSim {
  queue : list entry;
  hunter : Hunter;
  elapsed_time : Q }.

Definition is_enemy_entry (e : entry) : bool := String.eqb (snd e) "enemy".

(** [Enemy.stun]: only the queue of the simulation changes. *)
Definition Enemy_stun (duration : Q) (sim : Sim) : result Sim :=
  match List.filter is_enemy_entry (queue sim) with
  | [] => Raise IndexError
  | qe :: _ =>
      match list_remove entry_eqb qe (queue sim) with
      | Ok q =>
          Ok {| queue := heappush entry_ltb q (fst (fst qe) + duration, snd (fst qe), snd qe);
                hunter := hunter sim;
                elapsed_time := elapsed_time sim |}
      | Raise e => Raise e
      end
  end.

(** [Enemy.is_dead]. *)
Definition Enemy_is_dead (self : Enemy) : bool := Qle_bool (hp self) 0.

(** [Enemy.missing_hp] (property). *)
Definition Enemy_missing_hp (self : Enemy) : Q := max_hp self - hp self.

Definition set_hp (v : Q) (self : Enemy) : Enemy := {|
  name := name self;
  hp := v;
  max_hp := max_hp self;
  power := power self;
  regen := regen self;
  damage_reduction := damage_reduction self;
  evade_chance := evade_chance self;
  special_chance := special_chance self;
  special_damage := special_damage self;
  speed := speed self;
  stun_duration := stun_duration self |}.

(** The writes a death handler performs on objects it does not own, as
    steps, so that their order is part of the model. *)
Inductive death_step : Type :=
| IncrTotalKills
| PurgeEnemyEntries
| HeapifyQueue
| AppendEnrageLog (stacks : Z).

Definition run_death_step (sim : Sim) (st : death_step) : Sim :=
  match st with
  | IncrTotalKills =>
      {| queue := queue sim;
         hunter := {| hunter_cls := hunter_cls (hunter sim);
                      talents := talents (hunter sim);
                      attributes := attributes (hunter sim);
                      total_kills := (total_kills (hunter sim) + 1)%Z;
                      enrage_log := enrage_log (hunter sim) |};
         elapsed_time := elapsed_time sim |}
  | PurgeEnemyEntries =>
      {| queue := List.filter (fun e => negb (is_enemy_entry e)) (queue sim);
         hunter := hunter sim;
         elapsed_time := elapsed_time sim |}
  | HeapifyQueue =>
      {| queue := heapify entry_ltb (queue sim);
         hunter := hunter sim;
         elapsed_time := elapsed_time sim |}
  | AppendEnrageLog stacks =>
      {| queue := queue sim;
         hunter := {| hunter_cls := hunter_cls (hunter sim);
                      talents := talents (hunter sim);
                      attributes := attributes (hunter sim);
                      total_kills := total_kills (hunter sim);
                      enrage_log := enrage_log (hunter sim) ++ [stacks] |};
         elapsed_time := elapsed_time sim |}
  end.

Definition run_death_steps (steps : list death_step) (sim : Sim) : Sim :=
  fold_left run_death_step steps sim.

(** [Enemy.on_death], as its steps and as a state change. *)
Definition Enemy_on_death_steps : list death_step :=
  [IncrTotalKills; PurgeEnemyEntries; HeapifyQueue].

Definition Enemy_on_death (sim : Sim) : Sim :=
  run_death_steps Enemy_on_death_steps sim.

(** Methods take and return what they read and write: the unit, the
    simulation it points to, the random generator. *)
Section Methods.

(** [self.on_death], resolved on the class of [self]. *)
Variable on_death : Sim -> Sim.

(** [Enemy.receive_damage].  [and] short-circuits: reflected damage draws no
    sample. *)
Definition receive_damage (damage : Q) (is_reflected : bool)
    (self : Enemy) (sim : Sim) (g : Rng) : Enemy * Sim * Rng :=
  let '(evaded, g) :=
    if negb is_reflected
    then let '(r, g') := random g in (Qltb r (evade_chance self), g')
    else (false, g) in
  if evaded then (self, sim, g)
  else
    let mitigated_damage := damage * (1 - damage_reduction self) in
    let self := set_hp (hp self - mitigated_damage) self in
    if Enemy_is_dead self then (self, on_death sim, g) else (self, sim, g).

(** [Enemy.heal_hp]; [source] only feeds the log line. *)
Definition heal_hp (value : Q) (source : string) (self : Enemy) : Enemy :=
  let effective_heal := py_min value (Enemy_missing_hp self) in
  set_hp (hp self + effective_heal) self.

(** [Enemy.regen_hp]. *)
Definition regen_hp (self : Enemy) (sim : Sim) : Enemy * Sim :=
  let regen_value := regen self in
  let self := heal_hp regen_value "regen" self in
  if Enemy_is_dead self then (self, on_death sim) else (self, sim).

End Methods.

(** [Enemy.kill]: the call of [on_death] is commented out in the source. *)
Definition Enemy_kill (self : Enemy) : Enemy := set_hp 0 self.

(** [Enemy.attack]: the sample, then the call
    [hunter.receive_damage(self, damage, is_crit)], returned as
    [(damage, is_crit)]; the enemy itself is not written. *)
Definition Enemy_attack (self : Enemy) (g : Rng) : Q * bool * Rng :=
  let '(r, g) := random g in
  if Qltb r (special_chance self)
  then (power self * special_damage self, true, g)
  else (power self, false, g).

(** ** Boss *)

Record Boss : Type := mkBoss {
  boss_unit : Enemy;
  enrage_stacks : Z;
  max_enrage : bool;
  enrage_effect : Q }.

Section BossCreation.

Variables apply_pog apply_ood apply_snek apply_medusa : Hunter -> Enemy -> Enemy.

(** [Boss.__init__]: [Enemy.__init__] with [fetch_stats] resolved on [Boss],
    then the enrage attributes. *)
Definition Boss_init (name : string) (hunter : Hunter) (stage : Z) : result Boss :=
  match Boss_fetch_stats hunter stage with
  | Ok st =>
      let self := Enemy_on_create apply_pog apply_ood apply_snek apply_medusa
                    hunter (Enemy_create name st) in
      match hunter_cls hunter with
      | Borge => Ok (mkBoss self 0 false 0.0475)
      | Ozzy => Ok (mkBoss self 0 false 0.033658536585365856)
      | OtherHunter => Raise ValueError
      end
  | Raise e => Raise e
  end.

End BossCreation.

Definition set_power_special_chance (p sc : Q) (self : Enemy) : Enemy := {|
  name := name self;
  hp := hp self;
  max_hp := max_hp self;
  power := p;
  regen := regen self;
  damage_reduction := damage_reduction self;
  evade_chance := evade_chance self;
  special_chance := sc;
  special_damage := special_damage self;
  speed := speed self;
  stun_duration := stun_duration self |}.

(** [Boss.attack]: [Enemy.attack], then the enrage bookkeeping. *)
Definition Boss_attack (self : Boss) (g : Rng) : Q * bool * Boss * Rng :=
  let '(damage, is_crit, g) := Enemy_attack (boss_unit self) g in
  let stacks := (enrage_stacks self + 1)%Z in
  if (stacks >=? 200)%Z && negb (max_enrage self)
  then (damage, is_crit,
        {| boss_unit := set_power_special_chance (power (boss_unit self) * 3) 1 (boss_unit self);
           enrage_stacks := stacks;
           max_enrage := true;
           enrage_effect := enrage_effect self |}, g)
  else (damage, is_crit,
        {| boss_unit := boss_unit self;
           enrage_stacks := stacks;
           max_enrage := max_enrage self;
           enrage_effect := enrage_effect self |}, g).

(** [Boss.on_death]: [super().on_death()], then the append. *)
Definition Boss_on_death_steps (self : Boss) : list death_step :=
  Enemy_on_death_steps ++ [AppendEnrageLog (enrage_stacks self)].

Definition Boss_on_death (self : Boss) (sim : Sim) : Sim :=
  run_death_steps (Boss_on_death_steps self) sim.

(** [Boss.speed] (property) and its setter. *)
Definition Boss_speed (self : Boss) : Q :=
  py_max (speed (boss_unit self) - enrage_effect self * inject_Z (enrage_stacks self)) 0.5.

Definition Boss_set_speed (value : Q) (self : Boss) : Boss := {|
  boss_unit := {|
    name := name (boss_unit self);
    hp := hp (boss_unit self);
    max_hp := max_hp (boss_unit self);
    power := power (boss_unit self);
    regen := regen (boss_unit self);
    damage_reduction := damage_reduction (boss_unit self);
    evade_chance := evade_chance (boss_unit self);
    special_chance := special_chance (boss_unit self);
    special_damage := special_damage (boss_unit self);
    speed := value;
    stun_duration := stun_duration (boss_unit self) |};
  enrage_stacks := enrage_stacks self;
  max_enrage := max_enrage self;
  enrage_effect := enrage_effect self |}.

(** ** Unit kinds *)

(** The two classes a unit is built from; [fetch_stats] is resolved on the
    class, [__create__] is shared. *)
Inductive unit_kind : Type :=
| RegularEnemy
| BossUnit.

Definition fetch_stats (kind : unit_kind) : Hunter -> Z -> result Stats :=
  match kind with
  | RegularEnemy => Enemy_fetch_stats
  | BossUnit => Boss_fetch_stats
  end.

(** ** Statement vocabulary for the stat generator *)

(** A stat that follows the three regimes on the stages below 200: the base
    value alone up to stage 100, the base value times [late] from stage 101,
    and from stage 150 a further factor whose slope per stage is the one of
    step value 0. *)
Definition regime_formula (base late : Q) (stage : Z) (stat : Q) : Prop :=
  ((stage <= 100)%Z -> stat == base) /\
  ((100 < stage < 150)%Z -> stat == base * late) /\
  ((150 <= stage < 200)%Z ->
     stat == base * late * (1 + inject_Z (stage - 149) * (0.006 + 0.006 * 0))).

(** The compounding factor read with the step [(stage-150)//50] taken on
    integers, the reading under which the slope grows every 50 stages. *)
Definition stepped_compounding (stage : Z) : Q :=
  1 + inject_Z (stage - 149) * (0.006 + 0.006 * inject_Z ((stage - 150) / 50)).

Definition a_borge : Hunter := mkHunter Borge [] [] 0 [].
Definition an_ozzy : Hunter := mkHunter Ozzy [] [] 0 [].

(** ** Sample values used in the examples *)

Definition a_unit : Enemy := {|
  name := "E0011"; hp := 3; max_hp := 3; power := 1; regen := 5;
  damage_reduction := 0; evade_chance := 1; special_chance := 0.1;
  special_damage := 1.5; speed := 4; stun_duration := 0 |}.

Definition a_sim : Sim := {|
  queue := [(10, 2%Z, "enemy"%string); (12, 1%Z, "hunter"%string);
            (11, 3%Z, "regen"%string)];
  hunter := a_borge;
  elapsed_time := 9 |}.

Definition a_rng : Rng := mkRng (fun _ => 0.5) 0.

(** [n] consecutive [Boss.attack] calls. *)
Fixpoint Boss_attacks (n : nat) (self : Boss) (g : Rng) : Boss * Rng :=
  match n with
  | O => (self, g)
  | S n' =>
      let '(_, _, self, g) := Boss_attack self g in
      Boss_attacks n' self g
  end.

Definition a_boss : Boss := {|
  boss_unit := {|
    name := "B100"; hp := 36810; max_hp := 36810; power := 263.18;
    regen := 15.21; damage_reduction := 0.05; evade_chance := 0.004;
    special_chance := 0.1122; special_damage := 2.26; speed := 9.50;
    stun_duration := 0 |};
  enrage_stacks := 0;
  max_enrage := false;
  enrage_effect := 0.0475 |}.

(** ** Statement vocabulary for the heap *)

Section HeapqInvariant.

Context {A : Type} (lt : A -> A -> bool).

(** [(c - 1) >> 1], the position above [c]. *)
Definition parent (c : nat) : nat := ((c - 1) / 2)%nat.

(** The entry at [c] is not smaller than the entry at [p]. *)
Definition le_at (heap : list A) (p c : nat) : Prop :=
  forall x y, heap !! p = Some x -> heap !! c = Some y -> lt y x = false.

(** Every position whose parent lies at [s] or later respects its parent;
    [heap_from 0] is the heap invariant. *)
Definition heap_from (s : nat) (heap : list A) : Prop :=
  forall c, (1 <= c)%nat -> (s <= parent c)%nat -> le_at heap (parent c) c.

(** [c] lies in the subtree rooted at [s]. *)
Inductive descends (s : nat) : nat -> Prop :=
| descends_refl : descends s s
| descends_child (p c : nat) :
    descends s p -> (1 <= c)%nat -> parent c = p -> descends s c.

End HeapqInvariant.

(** The state of a boss that started with no stacks, after [k] attacks. *)
Definition enrage_trace (start : Boss) (k : Z) (b : Boss) : Prop :=
  enrage_stacks b = k /\
  enrage_effect b = enrage_effect start /\
  ((k < 200)%Z -> max_enrage b = false /\ boss_unit b = boss_unit start) /\
  ((200 <= k)%Z ->
     max_enrage b = true /\
     boss_unit b = set_power_special_chance (power (boss_unit start) * 3) 1
                     (boss_unit start)).

(** A two-entry queue with the "enemy" entry last. *)
Definition a_small_sim : Sim := {|
  queue := [(11, 3%Z, "regen"%string); (10, 2%Z, "enemy"%string)];
  hunter := a_borge;
  elapsed_time := 9 |}.

(** A creation hook that changes nothing. *)
Definition no_hook (h : Hunter) (e : Enemy) : Enemy := e.

(** ** [heal_hp] on binary64

    [Enemy.heal_hp] and [Enemy.missing_hp] once more, on the floats the
    interpreter computes with, for the two attributes they read and write. *)
Module Binary64.

Import Stdlib.Floats.PrimFloat.
#[local] Set Warnings "-inexact-float".

Record Unit : Type := mkUnit {
  hp : float;
  max_hp : float }.

(** [min(a, b)]. *)
Definition py_min (a b : float) : float := if ltb b a then b else a.

(** [Enemy.missing_hp]. *)
Definition missing_hp (self : Unit) : float := sub (max_hp self) (hp self).

(** [Enemy.heal_hp]. *)
Definition heal_hp (value : float) (self : Unit) : Unit :=
  let effective_heal := py_min value (missing_hp self) in
  {| hp := add (hp self) effective_heal;
     max_hp := max_hp self |}.



End Binary64.

(** * Properties *)

(** ** Comparisons, [min] and [max] *)

Lemma Qltb_lt (a b : Q) : Qltb a b = true <-> a < b.
Proof.
  unfold Qltb. rewrite negb_true_iff. split.
  - intros H. apply Qnot_le_lt. intros Hle. apply Qle_bool_iff in Hle. congruence.
  - intros H. destruct (Qle_bool b a) eqn:E; [|reflexivity].
    apply Qle_bool_iff in E. lra.
Qed.

Lemma Qltb_ge (a b : Q) : Qltb a b = false <-> b <= a.
Proof.
  unfold Qltb. rewrite negb_false_iff. apply Qle_bool_iff.
Qed.

Lemma py_min_spec (a b : Q) :
  (b < a /\ py_min a b = b) \/ (a <= b /\ py_min a b = a).
Proof.
  unfold py_min. destruct (Qltb b a) eqn:E.
  - left. split; [now apply Qltb_lt | reflexivity].
  - right. split; [now apply Qltb_ge | reflexivity].
Qed.

Lemma py_max_spec (a b : Q) :
  (a < b /\ py_max a b = b) \/ (b <= a /\ py_max a b = a).
Proof.
  unfold py_max. destruct (Qltb a b) eqn:E.
  - left. split; [now apply Qltb_lt | reflexivity].
  - right. split; [now apply Qltb_ge | reflexivity].
Qed.

Lemma py_min_le_r (a b : Q) : py_min a b <= b.
Proof. destruct (py_min_spec a b) as [[H ->]|[H ->]]; lra. Qed.

Lemma py_min_le_l (a b : Q) : py_min a b <= a.
Proof. destruct (py_min_spec a b) as [[H ->]|[H ->]]; lra. Qed.

Lemma py_max_ge_r (a b : Q) : b <= py_max a b.
Proof. destruct (py_max_spec a b) as [[H ->]|[H ->]]; lra. Qed.

Lemma Qfloor_unit_interval (x : Q) : 0 <= x -> x < 1 -> Qfloor x = 0%Z.
Proof.
  intros H0 H1.
  pose proof (Qfloor_le x) as Hlo. pose proof (Qlt_floor x) as Hhi.
  assert (Hlt : inject_Z (Qfloor x) < inject_Z 1).
  { change (inject_Z 1) with 1. lra. }
  assert (Hgt : inject_Z 0 < inject_Z (Qfloor x + 1)).
  { change (inject_Z 0) with 0. lra. }
  rewrite <- Zlt_Qlt in Hlt, Hgt. lia.
Qed.

Lemma inject_Z_le (a b : Z) : (a <= b)%Z -> inject_Z a <= inject_Z b.
Proof. intros H. now rewrite <- Zle_Qle. Qed.

Lemma inject_Z_lt (a b : Z) : (a < b)%Z -> inject_Z a < inject_Z b.
Proof. intros H. now rewrite <- Zlt_Qlt. Qed.

Lemma inject_Z_sub (a b : Z) : inject_Z (a - b) == inject_Z a - inject_Z b.
Proof.
  unfold Z.sub. rewrite inject_Z_plus, inject_Z_opp. reflexivity.
Qed.

Lemma py_floordiv_nonneg (a b : Q) : 0 <= a -> 0 < b -> 0 <= py_floordiv a b.
Proof.
  intros Ha Hb. unfold py_floordiv.
  change 0 with (inject_Z 0). rewrite <- Zle_Qle.
  rewrite <- (Qfloor_Z 0). apply Qfloor_resp_le.
  change (inject_Z 0) with 0. apply Qle_shift_div_l; lra.
Qed.

(** ** Stat generator *)

(** The float floor division of the source is 0 on the stages 150..199 (and
    stays 0 far beyond them). *)
Lemma step_term_zero (stage : Z) :
  (150 <= stage < 8484)%Z ->
  py_floordiv (0.006 * inject_Z (stage - 150)) 50 = 0.
Proof.
  intros H. unfold py_floordiv.
  rewrite Qfloor_unit_interval; [reflexivity | |].
  - assert (H1 := inject_Z_le 0 (stage - 150) ltac:(lia)).
    change (inject_Z 0) with 0 in H1.
    unfold Qdiv. change (/ 50) with (1 # 50). lra.
  - assert (H1 := inject_Z_le (stage - 150) 8333 ltac:(lia)).
    change (inject_Z 8333) with 8333 in H1.
    unfold Qdiv. change (/ 50) with (1 # 50). lra.
Qed.

Lemma stage_div_150 (stage : Z) : (150 <= stage < 300)%Z -> (stage / 150 = 1)%Z.
Proof.
  intros H. symmetry. apply (Z.div_unique stage 150 1 (stage - 150)); lia.
Qed.

Ltac regime_solve :=
  unfold regime_formula; cbn [hp power regen Enemy_create st_hp st_power st_regen];
  repeat split; intros Hs;
  rewrite ?Z.gtb_ltb, ?Z.geb_leb;
  repeat match goal with
  | |- context [(?a <? ?b)%Z] => destruct (Z.ltb_spec a b); try lia
  | |- context [(?a <=? ?b)%Z] => destruct (Z.leb_spec a b); try lia
  end;
  rewrite ?step_term_zero by lia;
  rewrite ?stage_div_150 by lia;
  try change (inject_Z 1) with 1;
  ring.

(** C1 (amended).  For Borge and Ozzy the hp, power and regen of a regular
    enemy follow three regimes with the boundaries [> 100] and [>= 150]: the
    base polynomial alone up to stage 100, the base polynomial times the fixed
    late-game multiplier on stages 101..149, and on stages 150..199 a further
    compounding factor [1 + (stage-149) * 0.006], the one of step value 0; an
    enemy created at stage 150 under Borge has hp, power and regen given by
    that factor at step value 0.  The other stats carry no multiplier:
    special chance, special damage and speed are linear in the stage, damage
    reduction is 0, and evade chance is 0 up to stage 100 and a constant from
    stage 101. *)
Theorem fetch_stats_regimes (hunter : Hunter) (stage : Z) (name : string) :
  (hunter_cls hunter = Borge ->
   exists st, Enemy_fetch_stats hunter stage = Ok st /\
     regime_formula (inject_Z (9 + stage * 4)) 2.85 stage (hp (Enemy_create name st)) /\
     regime_formula (2.5 + inject_Z stage * 0.7) 2.85 stage (power (Enemy_create name st)) /\
     regime_formula (if (stage >? 1)%Z then inject_Z (stage - 1) * 0.08 else 0) 1.052
       stage (regen (Enemy_create name st)) /\
     (stage = 150%Z ->
        hp (Enemy_create name st) == 609 * 2.85 * (1 + 1 * (0.006 + 0.006 * 0)) /\
        power (Enemy_create name st) == 107.5 * 2.85 * (1 + 1 * (0.006 + 0.006 * 0)) /\
        regen (Enemy_create name st) == 11.92 * 1.052 * (1 + 1 * (0.006 + 0.006 * 0))) /\
     st_special_chance st == 0.0322 + inject_Z stage * 0.0004 /\
     st_special_damage st == 1.21 + inject_Z stage * 0.008025 /\
     st_speed st == 4.53 - inject_Z stage * 0.006 /\
     st_damage_reduction st == 0 /\
     st_evade_chance st == (if (stage >? 100)%Z then 0.004 else 0)) /\
  (hunter_cls hunter = Ozzy ->
   exists st, Enemy_fetch_stats hunter stage = Ok st /\
     regime_formula (inject_Z (11 + stage * 6)) 2.9 stage (hp (Enemy_create name st)) /\
     regime_formula (1.35 + inject_Z stage * 0.75) 2.7 stage (power (Enemy_create name st)) /\
     regime_formula (if (stage >? 0)%Z then 0.02 + inject_Z (stage - 1) * 0.1 else 0) 1.25
       stage (regen (Enemy_create name st)) /\
     st_special_chance st == 0.0994 + inject_Z stage * 0.0006 /\
     st_special_damage st == 1.03 + inject_Z stage * 0.008 /\
     st_speed st == 3.20 - inject_Z stage * 0.004 /\
     st_damage_reduction st == 0 /\
     st_evade_chance st == (if (stage >? 100)%Z then 0.01 else 0)).
Proof.
  split; intros Hcls; unfold Enemy_fetch_stats; rewrite Hcls;
    eexists; (split; [reflexivity|]).
  - split; [regime_solve|]. split; [regime_solve|].
    split; [regime_solve|]. split.
    { intros ->. cbn [hp power regen Enemy_create st_hp st_power st_regen].
      rewrite step_term_zero by lia. vm_compute. repeat split. }
    cbn [st_special_chance st_special_damage st_speed st_damage_reduction
         st_evade_chance].
    repeat split; try reflexivity. destruct (stage >? 100)%Z; reflexivity.
  - split; [regime_solve|]. split; [regime_solve|].
    split; [regime_solve|].
    cbn [st_special_chance st_special_damage st_speed st_damage_reduction
         st_evade_chance].
    repeat split; try reflexivity. destruct (stage >? 100)%Z; reflexivity.
Qed.

Lemma fetch_stats_regimes_witness :
  hunter_cls a_borge = Borge /\ hunter_cls an_ozzy = Ozzy /\
  (exists st, Enemy_fetch_stats a_borge 150 = Ok st /\
     power (Enemy_create "E1501" st) == 107.5 * 2.85 * (1 + 1 * (0.006 + 0.006 * 0))) /\
  (exists st, Enemy_fetch_stats an_ozzy 100 = Ok st /\
     hp (Enemy_create "E1001" st) == 611) /\
  (exists st, Enemy_fetch_stats an_ozzy 101 = Ok st /\
     hp (Enemy_create "E1011" st) == 617 * 2.9).
Proof.
  split; [reflexivity|]. split; [reflexivity|]. split; [|split].
  - destruct (proj1 (fetch_stats_regimes a_borge 150 "E1501") eq_refl)
      as (st & Hst & _ & _ & _ & H150 & _).
    exists st. split; [exact Hst|]. exact (proj1 (proj2 (H150 eq_refl))).
  - destruct (proj2 (fetch_stats_regimes an_ozzy 100 "E1001") eq_refl)
      as (st & Hst & (H1 & _) & _).
    exists st. split; [exact Hst|]. exact (H1 ltac:(lia)).
  - destruct (proj2 (fetch_stats_regimes an_ozzy 101 "E1011") eq_refl)
      as (st & Hst & (_ & H2 & _) & _).
    exists st. split; [exact Hst|]. exact (H2 ltac:(lia)).
Defined.

(** On the code the step [(200-150)//50 = 1] leaves the slope of the
    compounding factor where it was at stage 150, and stat fields other than
    hp, power and regen have no multiplicative regimes: the special chance at
    stage 150 is its linear formula alone, and the evade chance of stage 101
    is a constant that no multiple of its earlier value 0 reaches. *)
Lemma fetch_stats_step_counterexample :
  ((200 - 150) / 50 = 1)%Z /\
  match Enemy_fetch_stats a_borge 200 with
  | Ok st =>
      st_power st == (2.5 + 200 * 0.7) * 2.85 * (1 + 51 * 0.006) /\
      ~ st_power st == (2.5 + 200 * 0.7) * 2.85 * stepped_compounding 200
  | Raise _ => False
  end /\
  match Enemy_fetch_stats a_borge 150 with
  | Ok st => st_special_chance st == 0.0322 + 150 * 0.0004
  | Raise _ => False
  end /\
  match Enemy_fetch_stats a_borge 100, Enemy_fetch_stats a_borge 101 with
  | Ok st100, Ok st101 =>
      st_evade_chance st100 == 0 /\ st_evade_chance st101 == 0.004 /\
      ~ (exists late, st_evade_chance st101 == st_evade_chance st100 * late)
  | _, _ => False
  end.
Proof.
  split; [reflexivity|]. split; [|split].
  - cbn [Enemy_fetch_stats a_borge hunter_cls st_power]. split.
    + vm_compute. reflexivity.
    + vm_compute. discriminate.
  - vm_compute. reflexivity.
  - cbn [Enemy_fetch_stats a_borge hunter_cls st_evade_chance].
    split; [vm_compute; reflexivity|]. split; [vm_compute; reflexivity|].
    intros [late H]. revert H. cbn. intros H. lra.
Qed.

(** In every generated stat bundle a positive regen is at most the hp. *)
Lemma compounding_le (stage : Z) (F : Q) :
  (150 <= stage)%Z -> 0 <= F ->
  0 <= 1 + inject_Z (stage - 149) * (0.006 + F) /\
  1 + inject_Z (stage - 149) * (0.006 + F)
    <= 1 + inject_Z (stage / 150) * inject_Z (stage - 149) * (0.006 + F).
Proof.
  intros Hs HF.
  assert (HX := inject_Z_le 1 (stage - 149) ltac:(lia)).
  change (inject_Z 1) with 1 in HX.
  assert (HD : 1 <= inject_Z (stage / 150)).
  { change 1 with (inject_Z 1). apply inject_Z_le.
    apply Z.div_le_lower_bound; lia. }
  assert (HXK : 0 <= inject_Z (stage - 149) * (0.006 + F))
    by (apply Qmult_le_0_compat; lra).
  split; [lra|].
  apply Qplus_le_r. apply Qmult_le_compat_r; [|lra].
  rewrite <- (Qmult_1_l (inject_Z (stage - 149))) at 1.
  apply Qmult_le_compat_r; lra.
Qed.

Lemma generated_regen_le_hp (kind : unit_kind) (hunter : Hunter) (stage : Z) (st : Stats) :
  fetch_stats kind hunter stage = Ok st -> 0 < st_regen st -> st_regen st <= st_hp st.
Proof.
  destruct kind; cbn [fetch_stats]; unfold Enemy_fetch_stats, Boss_fetch_stats;
    destruct (hunter_cls hunter); intros [= <-]; cbn [st_regen st_hp].
  - rewrite !Z.gtb_ltb, !Z.geb_leb.
    destruct (Z.ltb_spec 1 stage) as [H1|H1]; [|intros H; exfalso; lra].
    intros _.
    assert (Hs := inject_Z_lt 1 stage H1). change (inject_Z 1) with 1 in Hs.
    apply Qmult_le_compat_nonneg.
    + rewrite inject_Z_sub, inject_Z_plus, inject_Z_mult.
      change (inject_Z 1) with 1. change (inject_Z 9) with 9.
      change (inject_Z 4) with 4.
      destruct (Z.ltb_spec 100 stage); split; lra.
    + destruct (Z.leb_spec 150 stage) as [H150|H150]; [|split; lra].
      apply compounding_le; [assumption|].
      apply py_floordiv_nonneg; [|lra].
      assert (H := inject_Z_le 0 (stage - 150) ltac:(lia)).
      change (inject_Z 0) with 0 in H. lra.
  - rewrite !Z.gtb_ltb, !Z.geb_leb.
    destruct (Z.ltb_spec 0 stage) as [H1|H1]; [|intros H; exfalso; lra].
    intros _.
    assert (Hs := inject_Z_le 1 stage ltac:(lia)). change (inject_Z 1) with 1 in Hs.
    apply Qmult_le_compat_nonneg.
    + rewrite inject_Z_sub, inject_Z_plus, inject_Z_mult.
      change (inject_Z 1) with 1. change (inject_Z 11) with 11.
      change (inject_Z 6) with 6.
      destruct (Z.ltb_spec 100 stage); split; lra.
    + destruct (Z.leb_spec 150 stage) as [H150|H150]; [|split; lra].
      apply compounding_le; [assumption|].
      apply py_floordiv_nonneg; [|lra].
      assert (H := inject_Z_le 0 (stage - 150) ltac:(lia)).
      change (inject_Z 0) with 0 in H. lra.
  - intros _. vm_compute. discriminate.
  - intros _. vm_compute. discriminate.
Qed.

(** ** Construction *)

Lemma Enemy_create_caps (name : string) (st : Stats) :
  special_chance (Enemy_create name st) <= 0.25 /\
  special_damage (Enemy_create name st) <= 2.5.
Proof. split; apply py_min_le_r. Qed.

(** C2.  For every hunter class, stage and unit kind whose stats are
    generated, the unit built by [__create__] has
    [special_chance = min(raw, 0.25) <= 0.25] and
    [special_damage = min(raw, 2.5) <= 2.5]; only a hunter that is neither
    Borge nor Ozzy gets no stats. *)
Theorem special_caps_at_construction (kind : unit_kind) (hunter : Hunter)
    (stage : Z) (name : string) :
  match fetch_stats kind hunter stage with
  | Ok st =>
      special_chance (Enemy_create name st) = py_min (st_special_chance st) 0.25 /\
      special_damage (Enemy_create name st) = py_min (st_special_damage st) 2.5 /\
      special_chance (Enemy_create name st) <= 0.25 /\
      special_damage (Enemy_create name st) <= 2.5
  | Raise _ => hunter_cls hunter = OtherHunter
  end.
Proof.
  destruct kind; cbn [fetch_stats]; unfold Enemy_fetch_stats, Boss_fetch_stats;
    destruct (hunter_cls hunter); try reflexivity;
    (split; [reflexivity|]); (split; [reflexivity|]);
    apply Enemy_create_caps.
Qed.

(** The raw special chance of the Ozzy boss table lies above the cap. *)
Example Boss_Ozzy_special_chance_capped :
  match Boss_fetch_stats an_ozzy 100 with
  | Ok st => 0.25 < st_special_chance st /\
             special_chance (Enemy_create "B100" st) = 0.25
  | Raise _ => False
  end.
Proof. cbn. split; reflexivity. Qed.

(** The hooks of [on_create] run after the clamps.  When none of them
    writes the two capped attributes, the caps hold for the unit
    [Enemy.__init__] or [Boss.__init__] returns. *)
Lemma Enemy_on_create_keeps_specials
    (pog ood snek medusa : Hunter -> Enemy -> Enemy) (hunter : Hunter) (self : Enemy) :
  (forall f, In f [pog; ood; snek; medusa] -> forall h e,
      special_chance (f h e) = special_chance e /\
      special_damage (f h e) = special_damage e) ->
  special_chance (Enemy_on_create pog ood snek medusa hunter self) = special_chance self /\
  special_damage (Enemy_on_create pog ood snek medusa hunter self) = special_damage self.
Proof.
  intros Hhooks. unfold Enemy_on_create.
  repeat match goal with
  | |- context [if ?c then _ else _] => destruct c
  end;
  repeat match goal with
  | |- context [special_chance (?f ?h ?e)] =>
      rewrite (proj1 (Hhooks f ltac:(simpl; tauto) h e))
  | |- context [special_damage (?f ?h ?e)] =>
      rewrite (proj2 (Hhooks f ltac:(simpl; tauto) h e))
  end; split; reflexivity.
Qed.

Lemma Enemy_init_caps (pog ood snek medusa : Hunter -> Enemy -> Enemy)
    (name : string) (hunter : Hunter) (stage : Z) (self : Enemy) :
  (forall f, In f [pog; ood; snek; medusa] -> forall h e,
      special_chance (f h e) = special_chance e /\
      special_damage (f h e) = special_damage e) ->
  Enemy_init pog ood snek medusa name hunter stage = Ok self ->
  special_chance self <= 0.25 /\ special_damage self <= 2.5.
Proof.
  intros Hhooks. unfold Enemy_init.
  destruct (Enemy_fetch_stats hunter stage) as [st|]; [|discriminate].
  intros [= <-].
  destruct (Enemy_on_create_keeps_specials pog ood snek medusa hunter
              (Enemy_create name st) Hhooks) as [-> ->].
  apply Enemy_create_caps.
Qed.

Lemma Boss_init_caps (pog ood snek medusa : Hunter -> Enemy -> Enemy)
    (name : string) (hunter : Hunter) (stage : Z) (self : Boss) :
  (forall f, In f [pog; ood; snek; medusa] -> forall h e,
      special_chance (f h e) = special_chance e /\
      special_damage (f h e) = special_damage e) ->
  Boss_init pog ood snek medusa name hunter stage = Ok self ->
  special_chance (boss_unit self) <= 0.25 /\ special_damage (boss_unit self) <= 2.5 /\
  enrage_stacks self = 0%Z /\ max_enrage self = false.
Proof.
  intros Hhooks. unfold Boss_init.
  destruct (Boss_fetch_stats hunter stage) as [st|]; [|discriminate].
  pose proof (Enemy_on_create_keeps_specials pog ood snek medusa hunter
                (Enemy_create name st) Hhooks) as [Hc Hd].
  pose proof (Enemy_create_caps name st) as [Hcc Hcd].
  destruct (hunter_cls hunter); intros [= <-]; cbn [boss_unit enrage_stacks max_enrage];
    rewrite Hc, Hd; auto.
Qed.

(** ** Healing, damage and death of an enemy *)

Lemma Enemy_is_dead_iff (self : Enemy) : Enemy_is_dead self = true <-> hp self <= 0.
Proof. apply Qle_bool_iff. Qed.

Lemma Enemy_is_dead_false (self : Enemy) : Enemy_is_dead self = false <-> 0 < hp self.
Proof.
  unfold Enemy_is_dead. split; intros H.
  - apply Qnot_le_lt. intros Hle. apply Qle_bool_iff in Hle. congruence.
  - destruct (Qle_bool (hp self) 0) eqn:E; [|reflexivity].
    apply Qle_bool_iff in E. lra.
Qed.




(** C7.  Reflected damage always lands: whatever the evade chance and the
    generator, no sample is drawn, hp drops by
    [damage * (1 - damage_reduction)], and the death hook runs exactly when
    the new hp is at most 0.  Damage that is not reflected draws one sample,
    and a sample below the evade chance leaves unit and simulation as they
    were. *)
Theorem receive_damage_reflected_lands (on_death : Sim -> Sim) (damage : Q)
    (self : Enemy) (sim : Sim) (g : Rng) :
  receive_damage on_death damage true self sim g
    = (set_hp (hp self - damage * (1 - damage_reduction self)) self,
       if Qle_bool (hp self - damage * (1 - damage_reduction self)) 0
       then on_death sim else sim,
       g) /\
  (samples g (cursor g) < evade_chance self ->
   receive_damage on_death damage false self sim g = (self, sim, snd (random g))) /\
  (evade_chance self <= samples g (cursor g) ->
   receive_damage on_death damage false self sim g
     = (set_hp (hp self - damage * (1 - damage_reduction self)) self,
        if Qle_bool (hp self - damage * (1 - damage_reduction self)) 0
        then on_death sim else sim,
        snd (random g))).
Proof.
  unfold receive_damage, random, Enemy_is_dead. cbn [negb fst snd hp set_hp].
  split; [|split].
  - destruct (Qle_bool _ 0); reflexivity.
  - intros H. apply Qltb_lt in H. rewrite H. reflexivity.
  - intros H. apply Qltb_ge in H. rewrite H.
    destruct (Qle_bool _ 0); reflexivity.
Qed.

Lemma receive_damage_reflected_lands_witness :
  samples a_rng (cursor a_rng) < evade_chance a_unit /\
  receive_damage Enemy_on_death 2 false a_unit a_sim a_rng
    = (a_unit, a_sim, snd (random a_rng)) /\
  hp (fst (fst (receive_damage Enemy_on_death 2 true a_unit a_sim a_rng))) == 1.
Proof.
  assert (H : samples a_rng (cursor a_rng) < evade_chance a_unit) by (cbn; lra).
  split; [exact H|]. split.
  - exact (proj1 (proj2
      (receive_damage_reflected_lands Enemy_on_death 2 a_unit a_sim a_rng)) H).
  - rewrite (proj1 (receive_damage_reflected_lands Enemy_on_death 2 a_unit a_sim a_rng)).
    cbn. reflexivity.
Defined.

Lemma py_min_pos (a b : Q) : 0 < a -> 0 < b -> 0 < py_min a b.
Proof. intros Ha Hb. destruct (py_min_spec a b) as [[? ->]|[? ->]]; lra. Qed.

(** C10 (amended).  [kill] writes hp := 0 and nothing else, and runs no
    death handling; the unit then counts as dead.  For a unit with
    [regen > 0] and [max_hp > 0] the next [regen_hp] raises hp to
    [min(regen, max_hp) > 0] (to [regen] when [regen <= max_hp]), the unit is
    alive again, and [regen_hp] runs no death hook. *)
Theorem kill_then_regen_revives (on_death : Sim -> Sim) (self : Enemy) (sim : Sim) :
  Enemy_kill self
    = {| name := name self; hp := 0; max_hp := max_hp self; power := power self;
         regen := regen self; damage_reduction := damage_reduction self;
         evade_chance := evade_chance self; special_chance := special_chance self;
         special_damage := special_damage self; speed := speed self;
         stun_duration := stun_duration self |} /\
  Enemy_is_dead (Enemy_kill self) = true /\
  (0 < regen self -> 0 < max_hp self ->
   hp (fst (regen_hp on_death (Enemy_kill self) sim))
     == py_min (regen self) (max_hp self) /\
   0 < hp (fst (regen_hp on_death (Enemy_kill self) sim)) /\
   Enemy_is_dead (fst (regen_hp on_death (Enemy_kill self) sim)) = false /\
   snd (regen_hp on_death (Enemy_kill self) sim) = sim /\
   (regen self <= max_hp self ->
    hp (fst (regen_hp on_death (Enemy_kill self) sim)) == regen self)).
Proof.
  split; [reflexivity|]. split; [reflexivity|].
  intros Hregen Hmax.
  assert (Hheal : hp (heal_hp (regen self) "regen" (Enemy_kill self))
                  == py_min (regen self) (max_hp self)).
  { unfold heal_hp, Enemy_missing_hp, Enemy_kill. cbn [hp max_hp regen set_hp].
    destruct (py_min_spec (regen self) (max_hp self - 0)) as [[? ->]|[? ->]],
             (py_min_spec (regen self) (max_hp self)) as [[? ->]|[? ->]]; lra. }
  assert (Hpos : 0 < hp (heal_hp (regen self) "regen" (Enemy_kill self))).
  { rewrite Hheal. now apply py_min_pos. }
  assert (Halive := proj2 (Enemy_is_dead_false _) Hpos).
  unfold regen_hp. change (regen (Enemy_kill self)) with (regen self).
  rewrite Halive. cbn [fst snd].
  split; [exact Hheal|]. split; [exact Hpos|]. split; [exact Halive|].
  split; [reflexivity|].
  intros Hle. rewrite Hheal.
  destruct (py_min_spec (regen self) (max_hp self)) as [[? ->]|[? ->]]; lra.
Qed.

Lemma kill_then_regen_revives_witness :
  0 < regen (Enemy_create "E0101" (mkStats 49 9.5 0.72 0.0362 1.29 0 0 4.47)) /\
  0 < max_hp (Enemy_create "E0101" (mkStats 49 9.5 0.72 0.0362 1.29 0 0 4.47)) /\
  hp (fst (regen_hp Enemy_on_death
             (Enemy_kill (Enemy_create "E0101" (mkStats 49 9.5 0.72 0.0362 1.29 0 0 4.47)))
             a_sim)) == 0.72.
Proof.
  set (u := Enemy_create "E0101" (mkStats 49 9.5 0.72 0.0362 1.29 0 0 4.47)).
  assert (H1 : 0 < regen u) by (cbn; lra).
  assert (H2 : 0 < max_hp u) by (cbn; lra).
  split; [exact H1|]. split; [exact H2|].
  destruct (proj2 (proj2 (kill_then_regen_revives Enemy_on_death u a_sim)) H1 H2)
    as (_ & _ & _ & _ & H).
  apply H. cbn. lra.
Defined.

(** A unit whose regen exceeds its max hp comes back at max hp, not at
    regen. *)
Lemma kill_then_regen_counterexample :
  0 < regen a_unit /\
  hp (fst (regen_hp Enemy_on_death (Enemy_kill a_unit) a_sim)) == 3 /\
  ~ hp (fst (regen_hp Enemy_on_death (Enemy_kill a_unit) a_sim)) == regen a_unit.
Proof.
  split; [cbn; lra|]. split.
  - vm_compute. reflexivity.
  - vm_compute. discriminate.
Qed.

(** Every unit built from generated stats has [regen <= max_hp] when its
    regen is positive, so after [kill] its next [regen_hp] brings it back at
    exactly [regen]. *)
Lemma kill_then_regen_generated (on_death : Sim -> Sim) (kind : unit_kind)
    (hunter : Hunter) (stage : Z) (name : string) (st : Stats) (sim : Sim) :
  fetch_stats kind hunter stage = Ok st ->
  0 < regen (Enemy_create name st) ->
  hp (fst (regen_hp on_death (Enemy_kill (Enemy_create name st)) sim))
    == regen (Enemy_create name st) /\
  Enemy_is_dead (fst (regen_hp on_death (Enemy_kill (Enemy_create name st)) sim)) = false.
Proof.
  intros Hst Hregen.
  pose proof (generated_regen_le_hp kind hunter stage st Hst Hregen) as Hle.
  assert (Hheal : hp (heal_hp (regen (Enemy_create name st)) "regen"
                        (Enemy_kill (Enemy_create name st)))
                  == regen (Enemy_create name st)).
  { unfold heal_hp, Enemy_missing_hp, Enemy_kill.
    cbn [hp max_hp regen set_hp Enemy_create] in *.
    destruct (py_min_spec (st_regen st) (st_hp st - 0)) as [[? ->]|[? ->]]; lra. }
  assert (Halive : Enemy_is_dead (heal_hp (regen (Enemy_create name st)) "regen"
                                    (Enemy_kill (Enemy_create name st))) = false).
  { apply Enemy_is_dead_false. rewrite Hheal. exact Hregen. }
  unfold regen_hp.
  change (regen (Enemy_kill (Enemy_create name st))) with (regen (Enemy_create name st)).
  rewrite Halive. cbn [fst]. split; [exact Hheal | exact Halive].
Qed.

(** ** Boss *)

Lemma Boss_attack_boss (self : Boss) (g : Rng) :
  snd (fst (Boss_attack self g)) =
    if ((enrage_stacks self + 1 >=? 200)%Z && negb (max_enrage self))%bool
    then {| boss_unit := set_power_special_chance (power (boss_unit self) * 3) 1
                           (boss_unit self);
            enrage_stacks := (enrage_stacks self + 1)%Z;
            max_enrage := true;
            enrage_effect := enrage_effect self |}
    else {| boss_unit := boss_unit self;
            enrage_stacks := (enrage_stacks self + 1)%Z;
            max_enrage := max_enrage self;
            enrage_effect := enrage_effect self |}.
Proof.
  unfold Boss_attack. destruct (Enemy_attack (boss_unit self) g) as [[damage is_crit] g'].
  destruct ((enrage_stacks self + 1 >=? 200)%Z && negb (max_enrage self))%bool;
    reflexivity.
Qed.

Lemma Boss_attacks_succ (n : nat) (self : Boss) (g : Rng) :
  Boss_attacks (S n) self g
    = Boss_attacks n (snd (fst (Boss_attack self g))) (snd (Boss_attack self g)).
Proof.
  cbn [Boss_attacks]. destruct (Boss_attack self g) as [[[damage is_crit] self'] g'].
  reflexivity.
Qed.

Lemma enrage_trace_step (start b : Boss) (k : Z) (g : Rng) :
  enrage_trace start k b -> enrage_trace start (k + 1) (snd (fst (Boss_attack b g))).
Proof.
  intros (Hk & He & Hlow & Hhigh). rewrite Boss_attack_boss, Hk.
  rewrite Z.geb_leb. destruct (Z.leb_spec 200 (k + 1)) as [Hge|Hlt]; cbn [andb].
  - destruct (Z.lt_ge_cases k 200) as [Hk200|Hk200].
    + destruct (Hlow Hk200) as [-> Hunit]. cbn [negb].
      unfold enrage_trace; cbn [enrage_stacks enrage_effect max_enrage boss_unit].
      rewrite Hunit. repeat split; try assumption; lia.
    + destruct (Hhigh Hk200) as [-> Hunit]. cbn [negb].
      unfold enrage_trace; cbn [enrage_stacks enrage_effect max_enrage boss_unit].
      repeat split; try assumption; lia.
  - destruct (Hlow ltac:(lia)) as [Hmax Hunit].
    unfold enrage_trace; cbn [enrage_stacks enrage_effect max_enrage boss_unit].
    repeat split; try assumption; lia.
Qed.

Lemma enrage_trace_attacks (start : Boss) (n : nat) :
  forall (b : Boss) (k : Z) (g : Rng),
    enrage_trace start k b ->
    enrage_trace start (k + Z.of_nat n) (fst (Boss_attacks n b g)).
Proof.
  induction n as [|n IH]; intros b k g H.
  - cbn [Boss_attacks fst]. now replace (k + Z.of_nat 0)%Z with k by lia.
  - rewrite Boss_attacks_succ.
    replace (k + Z.of_nat (S n))%Z with ((k + 1) + Z.of_nat n)%Z by lia.
    apply IH. now apply enrage_trace_step.
Qed.

(** C4.  Every [Boss.attack] adds exactly 1 to [enrage_stacks], special hit
    or not.  The attack that brings the stacks of a boss not yet at max
    enrage to at least 200 sets [max_enrage], makes power exactly 3 times
    what it was and special chance exactly 1; an attack on a boss at max
    enrage changes neither again.  From a fresh boss: fewer than 200 attacks
    leave power and latch alone, exactly 200 give 3 times the initial power,
    and 201 still give 3 times, not 9 times. *)
Theorem Boss_attack_enrage (self : Boss) (g : Rng) :
  let after := snd (fst (Boss_attack self g)) in
  enrage_stacks after = (enrage_stacks self + 1)%Z /\
  (max_enrage self = false -> (200 <= enrage_stacks self + 1)%Z ->
     max_enrage after = true /\
     power (boss_unit after) = power (boss_unit self) * 3 /\
     special_chance (boss_unit after) = 1) /\
  (max_enrage self = false -> (enrage_stacks self + 1 < 200)%Z ->
     max_enrage after = false /\ boss_unit after = boss_unit self) /\
  (max_enrage self = true ->
     max_enrage after = true /\ boss_unit after = boss_unit self) /\
  (enrage_stacks self = 0%Z -> max_enrage self = false ->
     forall n : nat,
       let b := fst (Boss_attacks n self g) in
       enrage_stacks b = Z.of_nat n /\
       ((n < 200)%nat -> max_enrage b = false /\ boss_unit b = boss_unit self) /\
       ((200 <= n)%nat ->
          max_enrage b = true /\
          power (boss_unit b) = power (boss_unit self) * 3 /\
          special_chance (boss_unit b) = 1)).
Proof.
  cbv zeta. rewrite Boss_attack_boss. rewrite Z.geb_leb.
  split; [destruct (_ && _)%bool; reflexivity|].
  split; [|split; [|split]].
  - intros -> H. destruct (Z.leb_spec 200 (enrage_stacks self + 1)); [|lia].
    cbn. repeat split.
  - intros -> H. destruct (Z.leb_spec 200 (enrage_stacks self + 1)); [lia|].
    cbn. repeat split.
  - intros ->. rewrite andb_false_r. cbn. repeat split.
  - intros H0 Hmax n.
    assert (Hstart : enrage_trace self 0 self).
    { unfold enrage_trace. repeat split; try assumption; lia. }
    destruct (enrage_trace_attacks self n self 0 g Hstart) as (Hk & _ & Hlow & Hhigh).
    split; [rewrite Hk; lia|]. split.
    + intros Hn. apply Hlow. lia.
    + intros Hn. destruct (Hhigh ltac:(lia)) as [Hm ->]. cbn. repeat split. exact Hm.
Qed.

Lemma Boss_attack_enrage_witness :
  enrage_stacks a_boss = 0%Z /\ max_enrage a_boss = false /\
  power (boss_unit (fst (Boss_attacks 199 a_boss a_rng))) = 263.18 /\
  power (boss_unit (fst (Boss_attacks 200 a_boss a_rng))) = 263.18 * 3 /\
  special_chance (boss_unit (fst (Boss_attacks 200 a_boss a_rng))) = 1 /\
  power (boss_unit (fst (Boss_attacks 201 a_boss a_rng))) = 263.18 * 3.
Proof.
  pose proof (proj2 (proj2 (proj2 (proj2 (Boss_attack_enrage a_boss a_rng))))
                eq_refl eq_refl) as H.
  split; [reflexivity|]. split; [reflexivity|].
  split; [|split; [|split]].
  - destruct (H 199%nat) as (_ & Hlow & _).
    destruct (Hlow ltac:(lia)) as [_ ->]. reflexivity.
  - destruct (H 200%nat) as (_ & _ & Hhigh).
    destruct (Hhigh ltac:(lia)) as (_ & -> & _). reflexivity.
  - destruct (H 200%nat) as (_ & _ & Hhigh).
    destruct (Hhigh ltac:(lia)) as (_ & _ & ->). reflexivity.
  - destruct (H 201%nat) as (_ & _ & Hhigh).
    destruct (Hhigh ltac:(lia)) as (_ & -> & _). reflexivity.
Defined.

(** C8.  [Boss.speed] is [max(_speed - enrage_effect * enrage_stacks, 0.5)]
    of the attributes as they are when it is read, hence at least 0.5
    whatever the stacks: it follows the speed setter and every attack. *)
Theorem Boss_speed_floor (self : Boss) :
  Boss_speed self
    = py_max (speed (boss_unit self) - enrage_effect self * inject_Z (enrage_stacks self)) 0.5 /\
  0.5 <= Boss_speed self /\
  (forall value : Q,
     Boss_speed (Boss_set_speed value self)
       = py_max (value - enrage_effect self * inject_Z (enrage_stacks self)) 0.5) /\
  (forall g : Rng,
     Boss_speed (snd (fst (Boss_attack self g)))
       = py_max (speed (boss_unit self)
                 - enrage_effect self * inject_Z (enrage_stacks self + 1)) 0.5).
Proof.
  split; [reflexivity|]. split; [apply py_max_ge_r|]. split; [reflexivity|].
  intros g. rewrite Boss_attack_boss.
  destruct (_ && _)%bool; reflexivity.
Qed.

(** C9 (amended).  [Boss.on_death] first runs the death handling of
    [Enemy] (kill counter, purge, heapify) and appends the enrage stacks to
    the hunter's log last; the final state has the stacks at the end of the
    log, one more kill, and the queue [Enemy.on_death] leaves. *)
Theorem Boss_on_death_order (self : Boss) (sim : Sim) :
  Boss_on_death_steps self
    = [IncrTotalKills; PurgeEnemyEntries; HeapifyQueue;
       AppendEnrageLog (enrage_stacks self)] /\
  Boss_on_death self sim
    = run_death_step (Enemy_on_death sim) (AppendEnrageLog (enrage_stacks self)) /\
  enrage_log (hunter (Boss_on_death self sim))
    = enrage_log (hunter sim) ++ [enrage_stacks self] /\
  total_kills (hunter (Boss_on_death self sim)) = (total_kills (hunter sim) + 1)%Z /\
  queue (Boss_on_death self sim) = queue (Enemy_on_death sim).
Proof. repeat split. Qed.

(** The first write of [Boss.on_death] is the kill counter, not the log. *)
Lemma Boss_on_death_order_counterexample :
  hd_error (Boss_on_death_steps a_boss) = Some IncrTotalKills /\
  hd_error (Boss_on_death_steps a_boss) <> Some (AppendEnrageLog (enrage_stacks a_boss)) /\
  last (Boss_on_death_steps a_boss) = Some (AppendEnrageLog (enrage_stacks a_boss)).
Proof. repeat split. discriminate. Qed.

(** ** [heapq] on lists *)

Section HeapqProofs.

Local Open Scope nat_scope.

Context {A : Type} (lt : A -> A -> bool).

Hypothesis lt_irrefl : forall x, lt x x = false.
Hypothesis lt_asym : forall x y, lt x y = true -> lt y x = false.
Hypothesis le_trans :
  forall x y z, lt y x = false -> lt z y = false -> lt z x = false.

Lemma parent_children (p c : nat) :
  1 <= c /\ parent c = p <-> c = 2 * p + 1 \/ c = 2 * p + 2.
Proof.
  unfold parent. split.
  - intros [Hc <-].
    pose proof (Nat.div_mod_eq (c - 1) 2) as Hdm.
    pose proof (Nat.mod_upper_bound (c - 1) 2 ltac:(lia)) as Hm. lia.
  - intros [-> | ->]; split; try lia.
    + replace (2 * p + 1 - 1) with (p * 2) by lia. apply Nat.div_mul. lia.
    + replace (2 * p + 2 - 1) with (1 + p * 2) by lia.
      rewrite Nat.div_add by lia. reflexivity.
Qed.

Lemma parent_lt (c : nat) : 1 <= c -> parent c < c.
Proof.
  intros Hc. destruct (proj1 (parent_children (parent c) c)) as [H|H]; [now split| |]; lia.
Qed.

Lemma parent_le (c : nat) : parent c <= c - 1.
Proof.
  destruct c as [|c]; [reflexivity|]. pose proof (parent_lt (S c)). lia.
Qed.

Lemma descends_le (s c : nat) : descends s c -> s <= c.
Proof.
  induction 1 as [|p c _ IH Hc Hp]; [lia|].
  pose proof (parent_lt c Hc). lia.
Qed.

Lemma descends_parent (s c : nat) : descends s c -> s < c -> descends s (parent c).
Proof.
  intros H Hlt. destruct H as [|p c H Hc Hp]; [lia|]. now rewrite Hp.
Qed.

Lemma descends_root (c : nat) : descends 0 c.
Proof.
  induction c as [c IH] using lt_wf_ind.
  destruct c as [|c]; [constructor|].
  apply (descends_child 0 (parent (S c))); [|lia|reflexivity].
  apply IH. apply parent_lt. lia.
Qed.

(** Writing [x] over a copy of the entry at [j] that was made at [i] is, as
    a multiset, writing [x] at [i]. *)
Lemma insert_swap_head (l : list A) (j : nat) (x y : A) :
  l !! j = Some y -> y :: <[j := x]> l ≡ₚ x :: l.
Proof.
  revert j. induction l as [|a l IH]; intros [|j] Hj; try discriminate.
  - cbn in Hj. injection Hj as ->. cbn. apply perm_swap.
  - cbn in Hj. cbn [list_insert insert].
    change (<[S j := x]> (a :: l)) with (a :: <[j := x]> l).
    rewrite perm_swap. rewrite (IH j Hj). apply perm_swap.
Qed.

Lemma hole_move (l : list A) (i j : nat) (x y : A) :
  i <> j -> i < length l -> l !! j = Some y ->
  <[j := x]> (<[i := y]> l) ≡ₚ <[i := x]> l.
Proof.
  revert i j. induction l as [|a l IH]; intros i j Hne Hi Hj; [cbn in Hi; lia|].
  destruct i as [|i], j as [|j]; try lia.
  - cbn in Hj. change (y :: <[j := x]> l ≡ₚ x :: l). now apply insert_swap_head.
  - cbn in Hj. injection Hj as ->.
    change (x :: <[i := y]> l ≡ₚ y :: <[i := x]> l).
    assert (Hi' : i < length l) by (cbn in Hi; lia).
    rewrite <- (list_insert_insert_eq l i y x).
    apply insert_swap_head. now apply list_lookup_insert_eq.
  - change (a :: <[j := x]> (<[i := y]> l) ≡ₚ a :: <[i := x]> l).
    apply perm_skip. apply IH; cbn in *; [lia|lia|assumption].
Qed.

(** *** [_siftdown] *)

(** The loop never runs out of fuel: any fuel from [pos] on gives the same
    list, and with no fuel left [pos] is 0, where the loop has ended. *)
Lemma siftdown_loop_fuel (fuel : nat) :
  forall (fuel' : nat) (heap : list A) (s pos : nat) (x : A),
    pos <= fuel -> pos <= fuel' ->
    _siftdown_loop lt fuel heap s pos x = _siftdown_loop lt fuel' heap s pos x.
Proof.
  induction fuel as [|fuel IH]; intros [|fuel'] heap s pos x H1 H2;
    cbn [_siftdown_loop]; try reflexivity.
  - assert (pos = 0) as -> by lia.
    destruct (Nat.ltb_spec s 0); [lia | reflexivity].
  - assert (pos = 0) as -> by lia.
    destruct (Nat.ltb_spec s 0); [lia | reflexivity].
  - destruct (Nat.ltb_spec s pos) as [Hs|Hs]; [|reflexivity].
    change ((pos - 1) / 2) with (parent pos).
    destruct (heap !! parent pos) as [z|]; [|reflexivity].
    destruct (lt x z); [|reflexivity].
    pose proof (parent_le pos). apply IH; lia.
Qed.

Lemma siftdown_loop_length (fuel : nat) :
  forall (heap : list A) (s pos : nat) (x : A),
    length (_siftdown_loop lt fuel heap s pos x) = length heap.
Proof.
  induction fuel as [|fuel IH]; intros heap s pos x; cbn [_siftdown_loop].
  - apply length_insert.
  - destruct (s <? pos); [|apply length_insert].
    destruct (heap !! _) as [z|]; [|apply length_insert].
    destruct (lt x z); [|apply length_insert].
    rewrite IH. apply length_insert.
Qed.

Lemma siftdown_loop_perm (fuel : nat) :
  forall (heap : list A) (s pos : nat) (x : A),
    pos < length heap ->
    _siftdown_loop lt fuel heap s pos x ≡ₚ <[pos := x]> heap.
Proof.
  induction fuel as [|fuel IH]; intros heap s pos x Hpos; cbn [_siftdown_loop];
    [reflexivity|].
  destruct (Nat.ltb_spec s pos) as [Hs|Hs]; [|reflexivity].
  change ((pos - 1) / 2) with (parent pos).
  destruct (heap !! parent pos) as [z|] eqn:Hz; [|reflexivity].
  destruct (lt x z); [|reflexivity].
  pose proof (parent_lt pos ltac:(lia)) as Hq.
  rewrite IH by (rewrite length_insert; lia).
  apply hole_move; [lia | assumption | assumption].
Qed.

(** Writing [x] at [pos] completes the heap from [s] on when the rest is in
    order, no child of [pos] is below [x], and the parent of [pos], if the
    loop looked at it, is not above [x]. *)
Lemma siftdown_finish (heap : list A) (s pos : nat) (x : A) :
  pos < length heap ->
  (forall c, 1 <= c -> s <= parent c -> c <> pos -> parent c <> pos ->
     le_at lt heap (parent c) c) ->
  (forall c y, 1 <= c -> parent c = pos -> heap !! c = Some y -> lt y x = false) ->
  (pos <= s \/ forall z, heap !! parent pos = Some z -> lt x z = false) ->
  heap_from lt s (<[pos := x]> heap).
Proof.
  intros Hpos Hrest Hkids Hup c Hc Hs a b Ha Hb.
  pose proof (parent_lt c Hc) as Hpc.
  destruct (decide (c = pos)) as [->|Hcp].
  - rewrite list_lookup_insert_eq in Hb by assumption. injection Hb as <-.
    rewrite list_lookup_insert_ne in Ha by lia.
    destruct Hup as [Hup|Hup]; [lia | now apply Hup].
  - rewrite list_lookup_insert_ne in Hb by congruence.
    destruct (decide (parent c = pos)) as [Hp|Hp].
    + rewrite Hp, list_lookup_insert_eq in Ha by assumption. injection Ha as <-.
      now apply (Hkids c).
    + rewrite list_lookup_insert_ne in Ha by congruence.
      now apply (Hrest c Hc Hs Hcp Hp).
Qed.

Lemma siftdown_loop_heap (fuel : nat) :
  forall (heap : list A) (s pos : nat) (x : A),
    pos <= fuel -> pos < length heap -> descends s pos ->
    (forall c, 1 <= c -> s <= parent c -> c <> pos -> parent c <> pos ->
       le_at lt heap (parent c) c) ->
    (forall c y, 1 <= c -> parent c = pos -> heap !! c = Some y -> lt y x = false) ->
    (s < pos -> forall c, 1 <= c -> parent c = pos -> le_at lt heap (parent pos) c) ->
    heap_from lt s (_siftdown_loop lt fuel heap s pos x).
Proof.
  induction fuel as [|fuel IH];
    intros heap s pos x Hfuel Hpos Hdesc Hrest Hkids Hgrand; cbn [_siftdown_loop].
  { apply siftdown_finish; auto. left. lia. }
  destruct (Nat.ltb_spec s pos) as [Hs|Hs];
    [|apply siftdown_finish; auto].
  change ((pos - 1) / 2) with (parent pos).
  pose proof (parent_lt pos ltac:(lia)) as Hq.
  destruct (heap !! parent pos) as [z|] eqn:Hz;
    [|apply lookup_ge_None_1 in Hz; lia].
  destruct (lt x z) eqn:Hxz;
    [|apply siftdown_finish; auto; right; intros z' Hz';
      rewrite Hz in Hz'; now injection Hz' as <-].
  pose proof (descends_parent s pos Hdesc Hs) as Hdq.
  pose proof (descends_le s _ Hdq) as Hsq.
  assert (Hedge : forall c y, 1 <= c -> parent c = parent pos -> c <> pos ->
                    heap !! c = Some y -> lt y z = false).
  { intros c y Hc Hpc Hcp Hy.
    apply (Hrest c Hc ltac:(lia) Hcp ltac:(lia)); [now rewrite Hpc | assumption]. }
  apply IH.
  - lia.
  - rewrite length_insert. lia.
  - assumption.
  - intros c Hc Hsc Hcq Hpq a b Ha Hb.
    pose proof (parent_lt c Hc) as Hpc.
    destruct (decide (c = pos)) as [->|Hcp]; [congruence|].
    rewrite list_lookup_insert_ne in Hb by congruence.
    destruct (decide (parent c = pos)) as [Hp|Hp].
    + rewrite Hp, list_lookup_insert_eq in Ha by assumption. injection Ha as <-.
      now apply (Hgrand Hs c Hc Hp z b).
    + rewrite list_lookup_insert_ne in Ha by congruence.
      now apply (Hrest c Hc Hsc Hcp Hp).
  - intros c y Hc Hpc Hy.
    destruct (decide (c = pos)) as [->|Hcp].
    + rewrite list_lookup_insert_eq in Hy by assumption. injection Hy as <-.
      now apply lt_asym.
    + rewrite list_lookup_insert_ne in Hy by congruence.
      apply (le_trans x z y); [now apply lt_asym | now apply (Hedge c)].
  - intros Hsq' c Hc Hpc a b Ha Hb.
    pose proof (parent_lt (parent pos) ltac:(lia)) as Hqq.
    rewrite list_lookup_insert_ne in Ha by lia.
    assert (Hza : lt z a = false).
    { pose proof (descends_le s _ (descends_parent s _ Hdq Hsq')) as Hsqq.
      apply (Hrest (parent pos) ltac:(lia) Hsqq ltac:(lia) ltac:(lia)); assumption. }
    destruct (decide (c = pos)) as [->|Hcp].
    + rewrite list_lookup_insert_eq in Hb by assumption. now injection Hb as <-.
    + rewrite list_lookup_insert_ne in Hb by congruence.
      apply (le_trans a z b); [assumption | now apply (Hedge c)].
Qed.

(** [heappush] keeps the heap invariant and adds exactly the new item. *)
Lemma heappush_perm (heap : list A) (x : A) : heappush lt heap x ≡ₚ x :: heap.
Proof.
  unfold heappush, _siftdown.
  rewrite (list_lookup_middle heap [] x (length heap) eq_refl).
  rewrite siftdown_loop_perm by (rewrite length_app; cbn; lia).
  rewrite list_insert_id by apply (list_lookup_middle heap [] x _ eq_refl).
  symmetry. apply Permutation_cons_append.
Qed.

Lemma heappush_heap (heap : list A) (x : A) :
  heap_from lt 0 heap -> heap_from lt 0 (heappush lt heap x).
Proof.
  intros Hheap. unfold heappush, _siftdown.
  rewrite (list_lookup_middle heap [] x (length heap) eq_refl).
  apply siftdown_loop_heap.
  - lia.
  - rewrite length_app. cbn. lia.
  - apply descends_root.
  - intros c Hc _ Hcl Hpl a b Ha Hb.
    pose proof (parent_lt c Hc) as Hpc.
    assert (Hclt : c < length heap).
    { apply lookup_lt_Some in Hb. rewrite length_app in Hb. cbn in Hb. lia. }
    rewrite lookup_app_l in Ha, Hb by lia.
    now apply (Hheap c Hc ltac:(lia)).
  - intros c y Hc Hpc Hy. apply lookup_lt_Some in Hy.
    rewrite length_app in Hy. cbn in Hy.
    pose proof (proj1 (parent_children _ c) (conj Hc Hpc)). lia.
  - intros _ c Hc Hpc a b _ Hb. apply lookup_lt_Some in Hb.
    rewrite length_app in Hb. cbn in Hb.
    pose proof (proj1 (parent_children _ c) (conj Hc Hpc)). lia.
Qed.

(** *** [_siftup] and [heapify] *)

Lemma smaller_child_spec (heap : list A) (pos : nat) :
  2 * pos + 1 < length heap ->
  exists child,
    (smaller_child lt heap (2 * pos + 1) = 2 * pos + 1 \/
     smaller_child lt heap (2 * pos + 1) = 2 * pos + 2) /\
    heap !! smaller_child lt heap (2 * pos + 1) = Some child /\
    forall c y, 1 <= c -> parent c = pos -> heap !! c = Some y -> lt y child = false.
Proof.
  intros Hlen. unfold smaller_child.
  destruct (lookup_lt_is_Some_2 heap _ Hlen) as [l Hl]. rewrite Hl.
  replace (2 * pos + 1 + 1) with (2 * pos + 2) by lia.
  destruct (heap !! (2 * pos + 2)) as [r|] eqn:Hr.
  - destruct (lt l r) eqn:Hlr; cbn [negb].
    + exists l. split; [now left|]. split; [assumption|].
      intros c y Hc Hp Hy.
      destruct (proj1 (parent_children pos c) (conj Hc Hp)) as [-> | ->].
      * rewrite Hl in Hy. injection Hy as <-. apply lt_irrefl.
      * rewrite Hr in Hy. injection Hy as <-. now apply lt_asym.
    + exists r. split; [now right|]. split; [assumption|].
      intros c y Hc Hp Hy.
      destruct (proj1 (parent_children pos c) (conj Hc Hp)) as [-> | ->].
      * rewrite Hl in Hy. now injection Hy as <-.
      * rewrite Hr in Hy. injection Hy as <-. apply lt_irrefl.
  - exists l. split; [now left|]. split; [assumption|].
    intros c y Hc Hp Hy.
    destruct (proj1 (parent_children pos c) (conj Hc Hp)) as [-> | ->].
    + rewrite Hl in Hy. injection Hy as <-. apply lt_irrefl.
    + congruence.
Qed.

(** The first loop of [_siftup] has fuel to spare: it stops at a leaf for
    any fuel of at least [len(heap) - pos]. *)
Lemma siftup_loop_fuel (fuel : nat) :
  forall (fuel' : nat) (heap : list A) (pos : nat),
    length heap <= pos + fuel -> length heap <= pos + fuel' ->
    _siftup_loop lt fuel heap pos = _siftup_loop lt fuel' heap pos.
Proof.
  induction fuel as [|fuel IH]; intros [|fuel'] heap pos H1 H2;
    cbn [_siftup_loop]; try reflexivity.
  - destruct (Nat.ltb_spec (2 * pos + 1) (length heap)); [lia | reflexivity].
  - destruct (Nat.ltb_spec (2 * pos + 1) (length heap)); [lia | reflexivity].
  - destruct (Nat.ltb_spec (2 * pos + 1) (length heap)) as [Hlen|]; [|reflexivity].
    destruct (smaller_child_spec heap pos Hlen) as (child & Hc & -> & _).
    apply IH; rewrite length_insert; lia.
Qed.

Lemma siftup_loop_spec (fuel : nat) :
  forall (heap : list A) (s pos : nat),
    length heap <= pos + fuel -> pos < length heap -> descends s pos ->
    (forall c, 1 <= c -> s <= parent c ->
       (parent c = pos /\ pos = s) \/ le_at lt heap (parent c) c) ->
    length (fst (_siftup_loop lt fuel heap pos)) = length heap /\
    length heap <= 2 * snd (_siftup_loop lt fuel heap pos) + 1 /\
    snd (_siftup_loop lt fuel heap pos) < length heap /\
    descends s (snd (_siftup_loop lt fuel heap pos)) /\
    heap_from lt s (fst (_siftup_loop lt fuel heap pos)) /\
    forall x, <[snd (_siftup_loop lt fuel heap pos) := x]>
                (fst (_siftup_loop lt fuel heap pos)) ≡ₚ <[pos := x]> heap.
Proof.
  induction fuel as [|fuel IH]; intros heap s pos Hfuel Hpos Hdesc Hinv;
    cbn [_siftup_loop]; [lia|].
  destruct (Nat.ltb_spec (2 * pos + 1) (length heap)) as [Hlen|Hlen].
  - destruct (smaller_child_spec heap pos Hlen) as (child & Hc & Hchild & Hmin).
    rewrite Hchild.
    set (cp := smaller_child lt heap (2 * pos + 1)) in *.
    assert (Hcp : 1 <= cp /\ parent cp = pos) by (apply parent_children; lia).
    assert (Hcplen : cp < length heap) by (eapply lookup_lt_Some; eauto).
    pose proof (descends_le s pos Hdesc) as Hsp.
    destruct (IH (<[pos := child]> heap) s cp) as (H1 & H2 & H3 & H4 & H5 & H6).
    + rewrite length_insert. lia.
    + rewrite length_insert. lia.
    + apply (descends_child s pos cp); tauto.
    + intros c Hc1 Hsc. right. intros a b Ha Hb.
      pose proof (parent_lt c Hc1) as Hpc.
      destruct (decide (parent c = pos)) as [Hp|Hp].
      * rewrite Hp, list_lookup_insert_eq in Ha by assumption. injection Ha as <-.
        rewrite list_lookup_insert_ne in Hb by lia.
        now apply (Hmin c b).
      * rewrite list_lookup_insert_ne in Ha by congruence.
        destruct (decide (c = pos)) as [->|Hcpos].
        -- rewrite list_lookup_insert_eq in Hb by assumption. injection Hb as <-.
           destruct (lookup_lt_is_Some_2 heap pos Hpos) as [v Hv].
           apply (le_trans a v child).
           ++ destruct (Hinv pos Hc1 Hsc) as [[? ?]|Hle]; [lia|]. now apply Hle.
           ++ destruct (Hinv cp ltac:(tauto) ltac:(lia)) as [[_ ?]|Hle]; [lia|].
              apply Hle; [|assumption]. now rewrite (proj2 Hcp).
        -- rewrite list_lookup_insert_ne in Hb by congruence.
           destruct (Hinv c Hc1 Hsc) as [[? ?]|Hle]; [congruence|]. now apply Hle.
    + rewrite !length_insert in *.
      repeat split; try assumption.
      intros x. rewrite H6. apply hole_move; [lia | assumption | assumption].
  - cbn [fst snd]. repeat split; try assumption; try lia; [|reflexivity].
    intros c Hc1 Hsc a b Ha Hb.
    destruct (Hinv c Hc1 Hsc) as [[Hp _]|Hle]; [|now apply Hle].
    apply lookup_lt_Some in Hb.
    pose proof (proj1 (parent_children _ c) (conj Hc1 Hp)). lia.
Qed.

Lemma siftup_heap (heap : list A) (s : nat) :
  s < length heap -> heap_from lt (S s) heap ->
  heap_from lt s (_siftup lt heap s) /\ _siftup lt heap s ≡ₚ heap.
Proof.
  intros Hs Hheap. unfold _siftup.
  destruct (lookup_lt_is_Some_2 heap s Hs) as [x Hx]. rewrite Hx.
  destruct (siftup_loop_spec (length heap) heap s s) as (H1 & H2 & H3 & H4 & H5 & H6).
  { lia. } { assumption. } { constructor. }
  { intros c Hc Hsc. destruct (decide (parent c = s)) as [Hp|Hp]; [now left|].
    right. apply Hheap; [assumption | lia]. }
  destruct (_siftup_loop lt (length heap) heap s) as [heap' leaf].
  cbn [fst snd] in *. unfold _siftdown.
  rewrite list_lookup_insert_eq by lia. split.
  - apply siftdown_loop_heap.
    + lia.
    + rewrite length_insert. lia.
    + assumption.
    + intros c Hc Hsc Hcl Hpl a b Ha Hb.
      rewrite list_lookup_insert_ne in Ha, Hb by congruence.
      now apply (H5 c).
    + intros c y Hc Hp Hy. apply lookup_lt_Some in Hy. rewrite length_insert in Hy.
      pose proof (proj1 (parent_children _ c) (conj Hc Hp)). lia.
    + intros _ c Hc Hp a b _ Hb. apply lookup_lt_Some in Hb.
      rewrite length_insert in Hb.
      pose proof (proj1 (parent_children _ c) (conj Hc Hp)). lia.
  - rewrite siftdown_loop_perm by (rewrite length_insert; lia).
    rewrite list_insert_insert_eq, H6. now rewrite list_insert_id.
Qed.

Lemma heapify_from (k : nat) :
  forall heap : list A,
    k <= length heap -> heap_from lt k heap ->
    heap_from lt 0 (fold_left (_siftup lt) (rev (seq 0 k)) heap) /\
    fold_left (_siftup lt) (rev (seq 0 k)) heap ≡ₚ heap.
Proof.
  induction k as [|k IH]; intros heap Hk Hheap; [now split|].
  rewrite seq_S, rev_app_distr. cbn [rev app fold_left Nat.add].
  destruct (siftup_heap heap k ltac:(lia) Hheap) as [Hh Hp].
  destruct (IH (_siftup lt heap k)) as [Hh' Hp'].
  - rewrite (Permutation_length Hp). lia.
  - assumption.
  - split; [assumption | now rewrite Hp'].
Qed.

(** [heapify] turns any list into a heap of the same entries. *)
Lemma heapify_heap (x : list A) :
  heap_from lt 0 (heapify lt x) /\ heapify lt x ≡ₚ x.
Proof.
  unfold heapify.
  pose proof (Nat.div_mod_eq (length x) 2) as Hdm.
  pose proof (Nat.mod_upper_bound (length x) 2 ltac:(lia)) as Hm.
  apply heapify_from; [lia|].
  intros c Hc Hp a b _ Hb. apply lookup_lt_Some in Hb.
  pose proof (proj1 (parent_children _ c) (conj Hc eq_refl)). lia.
Qed.

(** The executable check agrees with the invariant. *)
Lemma is_heap_iff (heap : list A) : is_heap lt heap = true <-> heap_from lt 0 heap.
Proof.
  unfold is_heap. rewrite forallb_forall. split.
  - intros H c Hc _ a b Ha Hb.
    assert (Hin : In c (seq 1 (length heap - 1))).
    { apply in_seq. apply lookup_lt_Some in Hb. lia. }
    specialize (H c Hin). unfold heap_edge in H.
    change ((c - 1) / 2) with (parent c) in H. rewrite Ha, Hb in H.
    now apply negb_true_iff in H.
  - intros H c Hin. apply in_seq in Hin. unfold heap_edge.
    change ((c - 1) / 2) with (parent c).
    destruct (heap !! parent c) as [a|] eqn:Ha; [|reflexivity].
    destruct (heap !! c) as [b|] eqn:Hb; [|reflexivity].
    apply negb_true_iff. apply (H c ltac:(lia) ltac:(lia) a b Ha Hb).
Qed.

End HeapqProofs.

(** ** The order on scheduling entries *)

Lemma string_compare_refl (u : string) : String.compare u u = Eq.
Proof.
  pose proof (String.compare_antisym u u) as H.
  destruct (String.compare u u); [reflexivity | discriminate | discriminate].
Qed.

Lemma ascii_compare_N (a b : ascii) :
  Ascii.compare a b = (N_of_ascii a ?= N_of_ascii b)%N.
Proof. reflexivity. Qed.

Lemma string_compare_le_trans (u : string) :
  forall v w : string,
    String.compare u v <> Gt -> String.compare v w <> Gt -> String.compare u w <> Gt.
Proof.
  induction u as [|a u IH]; intros [|b v] [|c w]; cbn [String.compare];
    try congruence.
  rewrite !ascii_compare_N.
  destruct (N.compare_spec (N_of_ascii a) (N_of_ascii b)) as [Hab|Hab|Hab];
    destruct (N.compare_spec (N_of_ascii b) (N_of_ascii c)) as [Hbc|Hbc|Hbc];
    destruct (N.compare_spec (N_of_ascii a) (N_of_ascii c)) as [Hac|Hac|Hac];
    try congruence; try lia.
  apply IH.
Qed.

Lemma string_ltb_irrefl (u : string) : String.ltb u u = false.
Proof. unfold String.ltb. now rewrite string_compare_refl. Qed.

Lemma string_ltb_asym (u v : string) : String.ltb u v = true -> String.ltb v u = false.
Proof.
  unfold String.ltb. rewrite (String.compare_antisym v u).
  destruct (String.compare u v); cbn; congruence.
Qed.

Lemma string_le_trans (u v w : string) :
  String.ltb v u = false -> String.ltb w v = false -> String.ltb w u = false.
Proof.
  unfold String.ltb. intros H1 H2.
  pose proof (string_compare_le_trans u v w) as H.
  rewrite (String.compare_antisym v u) in H1.
  rewrite (String.compare_antisym w v) in H2.
  rewrite (String.compare_antisym w u).
  destruct (String.compare u v), (String.compare v w), (String.compare u w);
    cbn in *; try congruence; exfalso; apply H; congruence.
Qed.

Lemma entry_ltb_true (t1 t2 : Q) (p1 p2 : Z) (u1 u2 : string) :
  entry_ltb (t1, p1, u1) (t2, p2, u2) = true <->
  t1 < t2 \/ (t1 == t2 /\ ((p1 < p2)%Z \/ (p1 = p2 /\ String.ltb u1 u2 = true))).
Proof.
  unfold entry_ltb.
  destruct (Qeq_bool t1 t2) eqn:Et; cbn [negb].
  - apply Qeq_bool_iff in Et.
    destruct (Z.eqb_spec p1 p2) as [Hp|Hp]; cbn [negb].
    + split; [intros H; right; tauto|]. intros [H|[_ [H|[_ H]]]]; [lra|lia|exact H].
    + rewrite Z.ltb_lt. split; [intros H; right; tauto|].
      intros [H|[_ [H|[H _]]]]; [lra|lia|lia].
  - apply Qeq_bool_neq in Et. rewrite Qltb_lt.
    split; [tauto|]. intros [H|[H _]]; [exact H | contradiction].
Qed.

Lemma entry_ltb_false (t1 t2 : Q) (p1 p2 : Z) (u1 u2 : string) :
  entry_ltb (t1, p1, u1) (t2, p2, u2) = false <->
  t2 < t1 \/ (t1 == t2 /\ ((p2 < p1)%Z \/ (p1 = p2 /\ String.ltb u1 u2 = false))).
Proof.
  unfold entry_ltb.
  destruct (Qeq_bool t1 t2) eqn:Et; cbn [negb].
  - apply Qeq_bool_iff in Et.
    destruct (Z.eqb_spec p1 p2) as [Hp|Hp]; cbn [negb].
    + split; [intros H; right; tauto|]. intros [H|[_ [H|[_ H]]]]; [lra|lia|exact H].
    + rewrite Z.ltb_ge. split; [intros H; right; split; [exact Et|left; lia]|].
      intros [H|[_ [H|[H _]]]]; [lra|lia|lia].
  - apply Qeq_bool_neq in Et. rewrite Qltb_ge.
    split.
    + intros H. left. apply Qle_lteq in H. destruct H as [H|H]; [exact H|].
      exfalso. apply Et. now symmetry.
    + intros [H|[H _]]; [lra | contradiction].
Qed.

Lemma entry_ltb_irrefl (a : entry) : entry_ltb a a = false.
Proof.
  destruct a as [[t p] u]. apply entry_ltb_false. right.
  split; [reflexivity|]. right. split; [reflexivity | apply string_ltb_irrefl].
Qed.

Lemma entry_ltb_asym (a b : entry) : entry_ltb a b = true -> entry_ltb b a = false.
Proof.
  destruct a as [[t1 p1] u1], b as [[t2 p2] u2].
  rewrite entry_ltb_true, entry_ltb_false.
  intros [H|[Ht [H|[Hp Hu]]]].
  - now left.
  - right. split; [now symmetry | now left].
  - right. split; [now symmetry|]. right.
    split; [now symmetry | now apply string_ltb_asym].
Qed.

Lemma entry_le_trans (a b c : entry) :
  entry_ltb b a = false -> entry_ltb c b = false -> entry_ltb c a = false.
Proof.
  destruct a as [[t1 p1] u1], b as [[t2 p2] u2], c as [[t3 p3] u3].
  rewrite !entry_ltb_false.
  intros [H1|[Ht1 [H1|[Hp1 Hu1]]]] [H2|[Ht2 [H2|[Hp2 Hu2]]]];
    try (left; lra);
    right; (split; [lra|]);
    try (left; lia).
  right. split; [lia|]. now apply (string_le_trans u1 u2 u3).
Qed.

(** ** Death and stun on the shared queue *)

Lemma heapify_queue_heap (q : list entry) :
  is_heap entry_ltb (heapify entry_ltb q) = true /\ heapify entry_ltb q ≡ₚ q.
Proof.
  destruct (heapify_heap entry_ltb entry_ltb_irrefl entry_ltb_asym entry_le_trans q)
    as [Hheap Hperm].
  split; [|exact Hperm].
  now apply (is_heap_iff entry_ltb).
Qed.

Lemma Enemy_on_death_queue (sim : Sim) :
  queue (Enemy_on_death sim)
    = heapify entry_ltb (List.filter (fun e => negb (is_enemy_entry e)) (queue sim)).
Proof. reflexivity. Qed.

(** C5.  The death handling of a unit adds exactly 1 to the hunter's kill
    counter, removes every "enemy" entry from the queue, keeps every other
    entry (with its multiplicity), and leaves the queue a min-heap; lethal
    damage that lands runs it.  [Boss.on_death] does the same to counter and
    queue. *)
Theorem on_death_purges_queue (sim : Sim) :
  total_kills (hunter (Enemy_on_death sim)) = (total_kills (hunter sim) + 1)%Z /\
  enrage_log (hunter (Enemy_on_death sim)) = enrage_log (hunter sim) /\
  queue (Enemy_on_death sim)
    ≡ₚ List.filter (fun e => negb (is_enemy_entry e)) (queue sim) /\
  (forall e, In e (queue (Enemy_on_death sim)) <->
             In e (queue sim) /\ is_enemy_entry e = false) /\
  is_heap entry_ltb (queue (Enemy_on_death sim)) = true /\
  (forall (damage : Q) (is_reflected : bool) (self : Enemy) (g : Rng),
     is_reflected = true \/ evade_chance self <= samples g (cursor g) ->
     hp self - damage * (1 - damage_reduction self) <= 0 ->
     snd (fst (receive_damage Enemy_on_death damage is_reflected self sim g))
       = Enemy_on_death sim) /\
  (forall b : Boss,
     total_kills (hunter (Boss_on_death b sim)) = (total_kills (hunter sim) + 1)%Z /\
     queue (Boss_on_death b sim) = queue (Enemy_on_death sim)).
Proof.
  destruct (heapify_queue_heap
              (List.filter (fun e => negb (is_enemy_entry e)) (queue sim)))
    as [Hheap Hperm].
  rewrite Enemy_on_death_queue.
  split; [reflexivity|]. split; [reflexivity|]. split; [exact Hperm|].
  split; [|split; [exact Hheap|split]].
  - intros e. split.
    + intros Hin. apply (Permutation_in _ Hperm) in Hin.
      apply filter_In in Hin. destruct Hin as [Hin He].
      split; [exact Hin | now apply negb_true_iff].
    + intros [Hin He]. apply (Permutation_in _ (Permutation_sym Hperm)).
      apply filter_In. split; [exact Hin | now apply negb_true_iff].
  - intros damage is_reflected self g Hlands Hlethal.
    apply Qle_bool_iff in Hlethal.
    unfold receive_damage, random, Enemy_is_dead. cbn [hp set_hp].
    destruct is_reflected; cbn [negb].
    + rewrite Hlethal. reflexivity.
    + destruct Hlands as [Hr|Hr]; [discriminate|].
      apply Qltb_ge in Hr. rewrite Hr, Hlethal. reflexivity.
  - intros b. split; reflexivity.
Qed.

Lemma on_death_purges_queue_witness :
  (true = true \/ evade_chance a_unit <= samples a_rng (cursor a_rng)) /\
  hp a_unit - 5 * (1 - damage_reduction a_unit) <= 0 /\
  snd (fst (receive_damage Enemy_on_death 5 true a_unit a_sim a_rng))
    = Enemy_on_death a_sim /\
  queue (Enemy_on_death a_sim)
    = [(11, 3%Z, "regen"%string); (12, 1%Z, "hunter"%string)].
Proof.
  assert (H1 : true = true \/ evade_chance a_unit <= samples a_rng (cursor a_rng))
    by (left; reflexivity).
  assert (H2 : hp a_unit - 5 * (1 - damage_reduction a_unit) <= 0) by (cbn; lra).
  split; [exact H1|]. split; [exact H2|]. split; [|reflexivity].
  exact (proj1 (proj2 (proj2 (proj2 (proj2 (proj2 (on_death_purges_queue a_sim))))))
           5 true a_unit a_rng H1 H2).
Defined.

(** *** [stun] *)

Lemma entry_eqb_refl (e : entry) : entry_eqb e e = true.
Proof.
  destruct e as [[t p] u]. unfold entry_eqb.
  now rewrite Qeq_bool_refl, Z.eqb_refl, String.eqb_refl.
Qed.

Lemma entry_eqb_kind (a b : entry) :
  entry_eqb a b = true -> is_enemy_entry a = is_enemy_entry b.
Proof.
  destruct a as [[t1 p1] u1], b as [[t2 p2] u2]. unfold entry_eqb, is_enemy_entry.
  intros H. apply andb_true_iff in H as [_ H]. apply String.eqb_eq in H.
  cbn [snd]. now subst.
Qed.

Lemma filter_no_enemy (pre : list entry) :
  Forall (fun e => is_enemy_entry e = false) pre ->
  List.filter is_enemy_entry pre = [].
Proof.
  induction 1 as [|e pre He _ IH]; [reflexivity|].
  cbn [List.filter]. now rewrite He.
Qed.

Lemma list_remove_first_enemy (pre post : list entry) (qe : entry) :
  Forall (fun e => is_enemy_entry e = false) pre ->
  is_enemy_entry qe = true ->
  list_remove entry_eqb qe (pre ++ qe :: post) = Ok (pre ++ post).
Proof.
  intros Hpre Hqe. induction Hpre as [|e pre He _ IH]; cbn [app list_remove].
  - now rewrite entry_eqb_refl.
  - destruct (entry_eqb e qe) eqn:E.
    + apply entry_eqb_kind in E. congruence.
    + now rewrite IH.
Qed.

(** What [stun] gets right: the first "enemy" entry is taken out and comes
    back [duration] later with its tie-break and kind, no other entry is
    added or lost, it is the only "enemy" entry when it was before, and the
    queue is a heap again whenever taking the entry out left one. *)
Lemma stun_entries (duration : Q) (sim : Sim) (pre post : list entry) (qe : entry) :
  queue sim = pre ++ qe :: post ->
  Forall (fun e => is_enemy_entry e = false) pre ->
  is_enemy_entry qe = true ->
  exists sim',
    Enemy_stun duration sim = Ok sim' /\
    hunter sim' = hunter sim /\
    queue sim' ≡ₚ (fst (fst qe) + duration, snd (fst qe), snd qe) :: pre ++ post /\
    (Forall (fun e => is_enemy_entry e = false) post ->
     forall e, In e (queue sim') -> is_enemy_entry e = true ->
       e = (fst (fst qe) + duration, snd (fst qe), snd qe)) /\
    (is_heap entry_ltb (pre ++ post) = true -> is_heap entry_ltb (queue sim') = true).
Proof.
  intros Hq Hpre Hqe. unfold Enemy_stun. rewrite Hq.
  rewrite List.filter_app, (filter_no_enemy pre Hpre). cbn [List.filter app].
  rewrite Hqe, (list_remove_first_enemy pre post qe Hpre Hqe).
  eexists. split; [reflexivity|]. cbn [hunter queue].
  split; [reflexivity|]. split; [apply heappush_perm|]. split.
  - intros Hpost e Hin He.
    apply (Permutation_in _ (heappush_perm entry_ltb _ _)) in Hin.
    destruct Hin as [<-|Hin]; [reflexivity|]. exfalso.
    rewrite List.Forall_forall in Hpre, Hpost.
    apply in_app_or in Hin.
    destruct Hin as [Hin|Hin]; [apply Hpre in Hin | apply Hpost in Hin]; congruence.
  - intros Hheap. apply (is_heap_iff entry_ltb). apply (is_heap_iff entry_ltb) in Hheap.
    now apply (heappush_heap entry_ltb entry_ltb_asym entry_le_trans).
Qed.

(** C3 (on the code).  On a three-entry heap whose "enemy" entry is at the
    head, [stun(3)] leaves exactly one "enemy" entry, at time 10 + 3 with
    tie-break 2, and the two other entries as they were, yet the resulting
    list is no heap: [list.remove] shifts the tail, [heappush] only sifts the
    new entry, and the entry due at 11 sits below the one due at 12. *)
Theorem stun_breaks_heap_order :
  is_heap entry_ltb (queue a_sim) = true /\
  List.filter is_enemy_entry (queue a_sim) = [(10, 2%Z, "enemy"%string)] /\
  Enemy_stun 3 a_sim
    = Ok {| queue := [(12, 1%Z, "hunter"%string); (11, 3%Z, "regen"%string);
                      (10 + 3, 2%Z, "enemy"%string)];
            hunter := hunter a_sim;
            elapsed_time := elapsed_time a_sim |} /\
  is_heap entry_ltb [(12, 1%Z, "hunter"%string); (11, 3%Z, "regen"%string);
                     (10 + 3, 2%Z, "enemy"%string)] = false /\
  entry_ltb (11, 3%Z, "regen"%string) (12, 1%Z, "hunter"%string) = true.
Proof. repeat split. Qed.

(** * Further properties of the code *)

(** ** Stat generation and construction *)

(** X1.  [fetch_stats] of either class raises [ValueError] exactly for a
    hunter that is neither Borge nor Ozzy, whatever the stage; for such a
    hunter [__init__] of [Enemy] and of [Boss] raises the same error,
    whatever the creation hooks are: none of them is reached. *)
Theorem unknown_hunter_raises (kind : unit_kind) (hunter : Hunter) (stage : Z)
    (pog ood snek medusa : Hunter -> Enemy -> Enemy) (name : string) :
  (fetch_stats kind hunter stage = Raise ValueError <-> hunter_cls hunter = OtherHunter) /\
  (hunter_cls hunter = OtherHunter ->
     Enemy_init pog ood snek medusa name hunter stage = Raise ValueError /\
     Boss_init pog ood snek medusa name hunter stage = Raise ValueError).
Proof.
  unfold Enemy_init, Boss_init.
  destruct kind; cbn [fetch_stats]; unfold Enemy_fetch_stats, Boss_fetch_stats;
    destruct (hunter_cls hunter);
    repeat split; intros; try discriminate; try congruence; eauto.
Qed.

(** X2.  In every generated stat bundle with a positive regen, regen is at
    most hp, for both classes, both hunters and every stage. *)
Theorem generated_regen_at_most_hp (kind : unit_kind) (hunter : Hunter)
    (stage : Z) (st : Stats) :
  fetch_stats kind hunter stage = Ok st ->
  0 < st_regen st ->
  st_regen st <= st_hp st /\ 0 < st_hp st.
Proof.
  intros Hst Hregen.
  pose proof (generated_regen_le_hp kind hunter stage st Hst Hregen) as Hle.
  split; [exact Hle | lra].
Qed.

Lemma generated_regen_at_most_hp_witness :
  exists st, fetch_stats RegularEnemy an_ozzy 300 = Ok st /\
    0 < st_regen st /\ st_regen st <= st_hp st.
Proof.
  eexists. split; [reflexivity|].
  assert (H : 0 < st_regen
                    match Enemy_fetch_stats an_ozzy 300 with
                    | Ok st => st
                    | Raise _ => mkStats 0 0 0 0 0 0 0 0
                    end) by (vm_compute; reflexivity).
  split; [exact H|].
  exact (proj1 (generated_regen_at_most_hp RegularEnemy an_ozzy 300 _ eq_refl H)).
Defined.

(** X3.  The speed of a regular enemy is positive exactly below stage 755
    under Borge and below stage 800 under Ozzy; from there on the generated
    speed is zero or negative. *)
Theorem regular_speed_positive (hunter : Hunter) (stage : Z) :
  match Enemy_fetch_stats hunter stage with
  | Ok st =>
      match hunter_cls hunter with
      | Borge => 0 < st_speed st <-> (stage < 755)%Z
      | Ozzy => 0 < st_speed st <-> (stage < 800)%Z
      | OtherHunter => False
      end
  | Raise _ => hunter_cls hunter = OtherHunter
  end.
Proof.
  unfold Enemy_fetch_stats. destruct (hunter_cls hunter); [| |reflexivity];
    cbn [st_speed]; split; intros H.
  - destruct (Z.lt_ge_cases stage 755) as [Hlt|Hge]; [exact Hlt|].
    apply inject_Z_le in Hge. change (inject_Z 755) with 755 in Hge. lra.
  - apply Z.lt_le_pred in H. apply inject_Z_le in H.
    change (inject_Z (Z.pred 755)) with 754 in H. lra.
  - destruct (Z.lt_ge_cases stage 800) as [Hlt|Hge]; [exact Hlt|].
    apply inject_Z_le in Hge. change (inject_Z 800) with 800 in Hge. lra.
  - apply Z.lt_le_pred in H. apply inject_Z_le in H.
    change (inject_Z (Z.pred 800)) with 799 in H. lra.
Qed.

Lemma Qmult3_le (a a' b b' c c' : Q) :
  0 <= a -> a <= a' -> 0 <= b -> b <= b' -> 0 <= c -> c <= c' ->
  a * b * c <= a' * b' * c'.
Proof.
  intros Ha Haa Hb Hbb Hc Hcc.
  apply Qmult_le_compat_nonneg; [|split; assumption].
  split; [now apply Qmult_le_0_compat|].
  apply Qmult_le_compat_nonneg; split; assumption.
Qed.

Lemma step_term_nonneg (stage : Z) :
  (150 <= stage)%Z -> 0 <= py_floordiv (0.006 * inject_Z (stage - 150)) 50.
Proof.
  intros H. apply py_floordiv_nonneg; [|lra].
  assert (H0 := inject_Z_le 0 (stage - 150) ltac:(lia)).
  change (inject_Z 0) with 0 in H0. lra.
Qed.

Lemma step_term_mono (s s' : Z) :
  (s <= s')%Z ->
  py_floordiv (0.006 * inject_Z (s - 150)) 50
    <= py_floordiv (0.006 * inject_Z (s' - 150)) 50.
Proof.
  intros H. unfold py_floordiv. apply inject_Z_le. apply Qfloor_resp_le.
  assert (H0 := inject_Z_le (s - 150) (s' - 150) ltac:(lia)).
  unfold Qdiv. change (/ 50) with (1 # 50). lra.
Qed.

(** The compounding factor of power and regen, and the one of hp, grow with
    the stage. *)
Lemma compounding_mono (s s' : Z) :
  (s <= s')%Z ->
  0 <= (if (s >=? 150)%Z
        then 1 + inject_Z (s - 149) * (0.006 + py_floordiv (0.006 * inject_Z (s - 150)) 50)
        else 1) /\
  (if (s >=? 150)%Z
   then 1 + inject_Z (s - 149) * (0.006 + py_floordiv (0.006 * inject_Z (s - 150)) 50)
   else 1)
  <= (if (s' >=? 150)%Z
      then 1 + inject_Z (s' - 149) * (0.006 + py_floordiv (0.006 * inject_Z (s' - 150)) 50)
      else 1).
Proof.
  intros H. rewrite !Z.geb_leb.
  destruct (Z.leb_spec 150 s) as [Hs|Hs]; destruct (Z.leb_spec 150 s') as [Hs'|Hs'];
    try lia.
  - pose proof (step_term_nonneg s Hs) as HF.
    pose proof (step_term_mono s s' H) as HFF.
    assert (HX := inject_Z_le 1 (s - 149) ltac:(lia)).
    assert (HXX := inject_Z_le (s - 149) (s' - 149) ltac:(lia)).
    change (inject_Z 1) with 1 in HX.
    assert (Hp : 0 <= inject_Z (s - 149)
                      * (0.006 + py_floordiv (0.006 * inject_Z (s - 150)) 50))
      by (apply Qmult_le_0_compat; lra).
    split; [lra|]. apply Qplus_le_r.
    apply Qmult_le_compat_nonneg; split; lra.
  - pose proof (step_term_nonneg s' Hs') as HF.
    assert (HX := inject_Z_le 1 (s' - 149) ltac:(lia)).
    change (inject_Z 1) with 1 in HX.
    assert (Hp : 0 <= inject_Z (s' - 149)
                      * (0.006 + py_floordiv (0.006 * inject_Z (s' - 150)) 50))
      by (apply Qmult_le_0_compat; lra).
    split; lra.
  - split; lra.
Qed.

Lemma hp_compounding_mono (s s' : Z) :
  (0 <= s)%Z -> (s <= s')%Z ->
  0 <= (if (s >=? 150)%Z
        then 1 + inject_Z (s / 150) * inject_Z (s - 149)
                 * (0.006 + py_floordiv (0.006 * inject_Z (s - 150)) 50)
        else 1) /\
  (if (s >=? 150)%Z
   then 1 + inject_Z (s / 150) * inject_Z (s - 149)
            * (0.006 + py_floordiv (0.006 * inject_Z (s - 150)) 50)
   else 1)
  <= (if (s' >=? 150)%Z
      then 1 + inject_Z (s' / 150) * inject_Z (s' - 149)
               * (0.006 + py_floordiv (0.006 * inject_Z (s' - 150)) 50)
      else 1).
Proof.
  intros H0 H. rewrite !Z.geb_leb.
  destruct (Z.leb_spec 150 s) as [Hs|Hs]; destruct (Z.leb_spec 150 s') as [Hs'|Hs'];
    try lia.
  - pose proof (step_term_nonneg s Hs) as HF.
    pose proof (step_term_mono s s' H) as HFF.
    assert (HX := inject_Z_le 1 (s - 149) ltac:(lia)).
    assert (HXX := inject_Z_le (s - 149) (s' - 149) ltac:(lia)).
    assert (HD := inject_Z_le 0 (s / 150) ltac:(apply Z.div_pos; lia)).
    assert (HDD := inject_Z_le (s / 150) (s' / 150)
                     ltac:(apply Z.div_le_mono; lia)).
    change (inject_Z 1) with 1 in HX. change (inject_Z 0) with 0 in HD.
    assert (Hp : 0 <= inject_Z (s / 150) * inject_Z (s - 149)
                      * (0.006 + py_floordiv (0.006 * inject_Z (s - 150)) 50)).
    { apply Qmult_le_0_compat; [apply Qmult_le_0_compat|]; lra. }
    split; [lra|]. apply Qplus_le_r. apply Qmult3_le; lra.
  - pose proof (step_term_nonneg s' Hs') as HF.
    assert (HX := inject_Z_le 1 (s' - 149) ltac:(lia)).
    assert (HD := inject_Z_le 0 (s' / 150) ltac:(apply Z.div_pos; lia)).
    change (inject_Z 1) with 1 in HX. change (inject_Z 0) with 0 in HD.
    assert (Hp : 0 <= inject_Z (s' / 150) * inject_Z (s' - 149)
                      * (0.006 + py_floordiv (0.006 * inject_Z (s' - 150)) 50)).
    { apply Qmult_le_0_compat; [apply Qmult_le_0_compat|]; lra. }
    split; lra.
  - split; lra.
Qed.

Ltac late_cases :=
  rewrite ?Z.gtb_ltb;
  repeat match goal with
  | |- context [(?a <? ?b)%Z] =>
      let Hlt := fresh "Hlt" in
      let Hge := fresh "Hge" in
      destruct (Z.ltb_spec a b) as [Hlt|Hge];
      [let c := eval compute in (a + 1)%Z in
       assert (inject_Z c <= inject_Z b) by (apply inject_Z_le; lia)
      | pose proof (inject_Z_le _ _ Hge)];
      try lia
  end;
  rewrite ?inject_Z_sub, ?inject_Z_plus, ?inject_Z_mult;
  change (inject_Z 0) with 0 in *;
  repeat match goal with
  | |- context [inject_Z (Zpos ?p)] =>
      change (inject_Z (Zpos p)) with (Qmake (Zpos p) 1)
  | H : context [inject_Z (Zpos ?p)] |- _ =>
      change (inject_Z (Zpos p)) with (Qmake (Zpos p) 1) in H
  end;
  try lra.

(** X4.  Difficulty grows with the stage: for stages from 0 on, the hp, power
    and regen a regular enemy is generated with never decrease when the stage
    increases, under Borge and under Ozzy. *)
Theorem stats_monotone_in_stage (hunter : Hunter) (s s' : Z) (st st' : Stats) :
  (0 <= s)%Z -> (s <= s')%Z ->
  Enemy_fetch_stats hunter s = Ok st ->
  Enemy_fetch_stats hunter s' = Ok st' ->
  st_hp st <= st_hp st' /\ st_power st <= st_power st' /\ st_regen st <= st_regen st'.
Proof.
  intros H0 Hle. unfold Enemy_fetch_stats.
  assert (Hs := inject_Z_le 0 s H0). assert (Hss := inject_Z_le s s' Hle).
  change (inject_Z 0) with 0 in Hs.
  destruct (compounding_mono s s' Hle) as [Hc0 Hc].
  destruct (hp_compounding_mono s s' H0 Hle) as [Hh0 Hh].
  destruct (hunter_cls hunter); intros [= <-] [= <-];
    cbn [st_hp st_power st_regen];
    (split; [|split]);
    (apply Qmult_le_compat_nonneg; [|split; assumption]);
    (split; [apply Qmult_le_0_compat|apply Qmult_le_compat_nonneg; split]);
    late_cases.
Qed.

Lemma stats_monotone_in_stage_witness :
  exists st st',
    Enemy_fetch_stats a_borge 149 = Ok st /\ Enemy_fetch_stats a_borge 300 = Ok st' /\
    st_hp st <= st_hp st'.
Proof.
  eexists. eexists. split; [reflexivity|]. split; [reflexivity|].
  exact (proj1 (stats_monotone_in_stage a_borge 149 300 _ _
                  ltac:(lia) ltac:(lia) eq_refl eq_refl)).
Defined.

(** X5.  Where the caps bite for regular enemies: under Borge the unit keeps
    its generated special chance up to stage 544 and has 0.25 from stage 545,
    and keeps its generated special damage up to stage 160 and has 2.5 from
    stage 161; under Ozzy the stages are 251/252 and 183/184. *)
Theorem special_cap_stages (hunter : Hunter) (stage : Z) (name : string) :
  match Enemy_fetch_stats hunter stage with
  | Ok st =>
      match hunter_cls hunter with
      | Borge =>
          special_chance (Enemy_create name st)
            == (if (stage <=? 544)%Z then st_special_chance st else 0.25) /\
          special_damage (Enemy_create name st)
            == (if (stage <=? 160)%Z then st_special_damage st else 2.5)
      | Ozzy =>
          special_chance (Enemy_create name st)
            == (if (stage <=? 251)%Z then st_special_chance st else 0.25) /\
          special_damage (Enemy_create name st)
            == (if (stage <=? 183)%Z then st_special_damage st else 2.5)
      | OtherHunter => False
      end
  | Raise _ => hunter_cls hunter = OtherHunter
  end.
Proof.
  unfold Enemy_fetch_stats. destruct (hunter_cls hunter); [| |reflexivity];
    cbn [special_chance special_damage Enemy_create st_special_chance st_special_damage];
    split;
    match goal with
    | |- context [(stage <=? ?n)%Z] =>
        destruct (Z.leb_spec stage n) as [Hle|Hgt];
        [assert (Hq : inject_Z stage <= inject_Z n) by (apply inject_Z_le; lia)
        |let c := eval compute in (n + 1)%Z in
         assert (Hq : inject_Z c <= inject_Z stage) by (apply inject_Z_le; lia)]
    end;
    match goal with
    | |- py_min ?a ?b == _ => destruct (py_min_spec a b) as [[? ->]|[? ->]]
    end;
    repeat match goal with
    | H : context [inject_Z (Zpos ?p)] |- _ =>
        change (inject_Z (Zpos p)) with (Qmake (Zpos p) 1) in H
    end;
    lra.
Qed.

(** X6.  A unit fresh from [__create__] never lands a special hit on a
    sample of 0.25 or more, whatever the hunter, stage and class of its
    stats: [attack] then passes plain [power] and [is_crit = False] to the
    hunter and uses up exactly one sample. *)
Theorem created_unit_no_special_above_cap (name : string) (st : Stats) (g : Rng) :
  0.25 <= samples g (cursor g) ->
  Enemy_attack (Enemy_create name st) g
    = (st_power st, false, mkRng (samples g) (S (cursor g))).
Proof.
  intros Hr. unfold Enemy_attack, random.
  destruct (Qltb (samples g (cursor g)) (special_chance (Enemy_create name st))) eqn:E;
    [|reflexivity].
  apply Qltb_lt in E. pose proof (proj1 (Enemy_create_caps name st)). lra.
Qed.

Lemma created_unit_no_special_above_cap_witness :
  0.25 <= samples a_rng (cursor a_rng) /\
  Enemy_attack (Enemy_create "B100" (mkStats 29328 229.05 59.52 0.3094 1.83 0.05 0.01 6.87))
    a_rng = (229.05, false, mkRng (samples a_rng) 1).
Proof.
  assert (H : 0.25 <= samples a_rng (cursor a_rng)) by (cbn; lra).
  split; [exact H|].
  exact (created_unit_no_special_above_cap "B100"
           (mkStats 29328 229.05 59.52 0.3094 1.83 0.05 0.01 6.87) a_rng H).
Defined.

(** ** Healing, damage and death *)

Lemma heal_bounds_aux (self : Enemy) (value : Q) (source : string) :
  value <= Enemy_missing_hp self -> hp (heal_hp value source self) == hp self + value.
Proof.
  unfold heal_hp, Enemy_missing_hp. cbn [hp set_hp]. intros H.
  destruct (py_min_spec value (max_hp self - hp self)) as [[? ->]|[? ->]]; lra.
Qed.

(** X8.  Regeneration that is zero or negative (the hunter's Gift of Medusa
    can make it so) takes hp down by exactly that amount, and [regen_hp]
    runs the death handler exactly when the new hp is at most 0. *)
Theorem negative_regen_can_kill (on_death : Sim -> Sim) (self : Enemy) (sim : Sim) :
  hp self <= max_hp self -> regen self <= 0 ->
  hp (fst (regen_hp on_death self sim)) == hp self + regen self /\
  (hp self + regen self <= 0 -> snd (regen_hp on_death self sim) = on_death sim) /\
  (0 < hp self + regen self -> snd (regen_hp on_death self sim) = sim).
Proof.
  intros Hmax Hregen.
  assert (Hheal : hp (heal_hp (regen self) "regen" self) == hp self + regen self).
  { apply heal_bounds_aux. unfold Enemy_missing_hp. lra. }
  unfold regen_hp.
  destruct (Enemy_is_dead (heal_hp (regen self) "regen" self)) eqn:E; cbn [fst snd].
  - apply Enemy_is_dead_iff in E. rewrite Hheal in E.
    split; [exact Hheal|]. split; [reflexivity | intros; lra].
  - apply Enemy_is_dead_false in E. rewrite Hheal in E.
    split; [exact Hheal|]. split; [intros; lra | reflexivity].
Qed.

Lemma negative_regen_can_kill_witness :
  hp (set_hp 1 (Enemy_create "E0101" (mkStats 49 9.5 (-2) 0.0362 1.29 0 0 4.47)))
    <= max_hp (set_hp 1 (Enemy_create "E0101" (mkStats 49 9.5 (-2) 0.0362 1.29 0 0 4.47))) /\
  regen (set_hp 1 (Enemy_create "E0101" (mkStats 49 9.5 (-2) 0.0362 1.29 0 0 4.47))) <= 0 /\
  snd (regen_hp Enemy_on_death
         (set_hp 1 (Enemy_create "E0101" (mkStats 49 9.5 (-2) 0.0362 1.29 0 0 4.47))) a_sim)
    = Enemy_on_death a_sim.
Proof.
  set (u := set_hp 1 (Enemy_create "E0101" (mkStats 49 9.5 (-2) 0.0362 1.29 0 0 4.47))).
  assert (H1 : hp u <= max_hp u) by (cbn; lra).
  assert (H2 : regen u <= 0) by (cbn; lra).
  split; [exact H1|]. split; [exact H2|].
  apply (proj1 (proj2 (negative_regen_can_kill Enemy_on_death u a_sim H1 H2))).
  cbn. lra.
Defined.

(** X9.  On a living unit with [hp <= max_hp] and a regen of at least 0,
    [regen_hp] runs no death handling: the simulation is untouched, hp does
    not drop, rises by at most [regen], and [max_hp] is not written. *)
Theorem regen_hp_alive_no_death (on_death : Sim -> Sim) (self : Enemy) (sim : Sim) :
  0 < hp self -> hp self <= max_hp self -> 0 <= regen self ->
  snd (regen_hp on_death self sim) = sim /\
  hp self <= hp (fst (regen_hp on_death self sim)) /\
  hp (fst (regen_hp on_death self sim)) <= hp self + regen self /\
  Enemy_is_dead (fst (regen_hp on_death self sim)) = false /\
  max_hp (fst (regen_hp on_death self sim)) = max_hp self.
Proof.
  intros Hpos Hmax Hregen.
  assert (Hheal : hp self <= hp (heal_hp (regen self) "regen" self)
                  /\ hp (heal_hp (regen self) "regen" self) <= hp self + regen self).
  { unfold heal_hp, Enemy_missing_hp. cbn [hp set_hp].
    destruct (py_min_spec (regen self) (max_hp self - hp self)) as [[? ->]|[? ->]];
      split; lra. }
  assert (Halive : Enemy_is_dead (heal_hp (regen self) "regen" self) = false)
    by (apply Enemy_is_dead_false; lra).
  unfold regen_hp. rewrite Halive. cbn [fst snd].
  split; [reflexivity|]. split; [tauto|]. split; [tauto|].
  split; [exact Halive | reflexivity].
Qed.

Lemma regen_hp_alive_no_death_witness :
  0 < hp (set_hp 1 a_unit) /\ hp (set_hp 1 a_unit) <= max_hp (set_hp 1 a_unit) /\
  0 <= regen (set_hp 1 a_unit) /\
  snd (regen_hp Enemy_on_death (set_hp 1 a_unit) a_sim) = a_sim.
Proof.
  assert (H1 : 0 < hp (set_hp 1 a_unit)) by (cbn; lra).
  assert (H2 : hp (set_hp 1 a_unit) <= max_hp (set_hp 1 a_unit)) by (cbn; lra).
  assert (H3 : 0 <= regen (set_hp 1 a_unit)) by (cbn; lra).
  split; [exact H1|]. split; [exact H2|]. split; [exact H3|].
  exact (proj1 (regen_hp_alive_no_death Enemy_on_death (set_hp 1 a_unit) a_sim H1 H2 H3)).
Defined.

(** X11.  Death handling is not guarded by a dead flag: on a unit whose hp
    is already at most 0 (after [kill], or after a lethal hit), every further
    reflected hit of non-negative mitigated damage runs the death handler
    again, so two such hits on an [Enemy] add 2 to the hunter's kill
    counter. *)
Theorem dead_unit_dies_again (damage1 damage2 : Q) (self : Enemy) (sim : Sim) (g : Rng) :
  hp self <= 0 ->
  0 <= damage1 * (1 - damage_reduction self) ->
  0 <= damage2 * (1 - damage_reduction self) ->
  snd (fst (receive_damage Enemy_on_death damage1 true self sim g)) = Enemy_on_death sim /\
  (let '(self1, sim1, g1) := receive_damage Enemy_on_death damage1 true self sim g in
   let '(self2, sim2, g2) := receive_damage Enemy_on_death damage2 true self1 sim1 g1 in
   total_kills (hunter sim2) = (total_kills (hunter sim) + 2)%Z /\
   Enemy_is_dead self2 = true) /\
  snd (fst (receive_damage Enemy_on_death damage1 true (Enemy_kill self) sim g))
    = Enemy_on_death sim.
Proof.
  intros Hdead H1 H2.
  unfold receive_damage, Enemy_is_dead, Enemy_kill. cbn [negb hp set_hp damage_reduction].
  assert (E1 : Qle_bool (hp self - damage1 * (1 - damage_reduction self)) 0 = true)
    by (apply Qle_bool_iff; lra).
  assert (E2 : Qle_bool (hp self - damage1 * (1 - damage_reduction self)
                         - damage2 * (1 - damage_reduction self)) 0 = true)
    by (apply Qle_bool_iff; lra).
  assert (E3 : Qle_bool (0 - damage1 * (1 - damage_reduction self)) 0 = true)
    by (apply Qle_bool_iff; lra).
  rewrite E1, E3. cbn [fst snd hp set_hp damage_reduction negb].
  rewrite E2. cbn [hp set_hp].
  split; [reflexivity|]. split; [|reflexivity].
  split; [cbn; lia | exact E2].
Qed.

Lemma dead_unit_dies_again_witness :
  hp (Enemy_kill a_unit) <= 0 /\
  0 <= 1 * (1 - damage_reduction (Enemy_kill a_unit)) /\
  snd (fst (receive_damage Enemy_on_death 1 true (Enemy_kill a_unit) a_sim a_rng))
    = Enemy_on_death a_sim.
Proof.
  assert (H0 : hp (Enemy_kill a_unit) <= 0) by (cbn; lra).
  assert (H1 : 0 <= 1 * (1 - damage_reduction (Enemy_kill a_unit))) by (cbn; lra).
  split; [exact H0|]. split; [exact H1|].
  exact (proj1 (dead_unit_dies_again 1 1 (Enemy_kill a_unit) a_sim a_rng H0 H1 H1)).
Defined.

(** ** The queue after death and stun *)

Section HeapqRoot.

Local Open Scope nat_scope.

Context {A : Type} (lt : A -> A -> bool).

Hypothesis lt_irrefl : forall x, lt x x = false.
Hypothesis le_trans :
  forall x y z, lt y x = false -> lt z y = false -> lt z x = false.

(** In a heap nothing is smaller than the entry at position 0. *)
Lemma heap_root_min (heap : list A) (m : A) :
  heap_from lt 0 heap -> heap !! 0 = Some m ->
  forall i x, heap !! i = Some x -> lt x m = false.
Proof.
  intros Hheap Hm i. induction i as [i IH] using lt_wf_ind. intros x Hx.
  destruct i as [|i].
  - rewrite Hm in Hx. injection Hx as <-. apply lt_irrefl.
  - pose proof (parent_lt (S i) ltac:(lia)) as Hp.
    pose proof (lookup_lt_Some _ _ _ Hx) as Hlen.
    destruct (lookup_lt_is_Some_2 heap (parent (S i)) ltac:(lia)) as [y Hy].
    apply (le_trans m y x).
    + apply (IH (parent (S i)) Hp y Hy).
    + apply (Hheap (S i) ltac:(lia) ltac:(lia) y x Hy Hx).
Qed.

(** A heap stays one when its last entries are dropped. *)
Lemma heap_from_prefix (l k : list A) : heap_from lt 0 (l ++ k) -> heap_from lt 0 l.
Proof.
  intros H c Hc Hs a b Ha Hb.
  apply (H c Hc Hs a b); apply lookup_app_l_Some; assumption.
Qed.

Lemma is_heap_short (l : list A) : length l <= 1 -> is_heap lt l = true.
Proof.
  intros H. unfold is_heap.
  destruct l as [|a [|b l]]; [reflexivity | reflexivity | cbn in H; lia].
Qed.

End HeapqRoot.

Lemma first_enemy_split (q : list entry) (qe : entry) (rest : list entry) :
  List.filter is_enemy_entry q = qe :: rest ->
  exists pre post,
    q = pre ++ qe :: post /\
    Forall (fun e => is_enemy_entry e = false) pre /\
    is_enemy_entry qe = true.
Proof.
  induction q as [|e q IH]; cbn [List.filter]; [discriminate|].
  destruct (is_enemy_entry e) eqn:He.
  - intros [= -> _]. exists [], q. repeat split; [constructor | assumption].
  - intros H. destruct (IH H) as (pre & post & -> & Hpre & Hqe).
    exists (e :: pre), post. repeat split; [now constructor | assumption].
Qed.

Lemma stun_ok_of_enemy (duration : Q) (sim : Sim) :
  List.filter is_enemy_entry (queue sim) <> [] ->
  exists sim' pre post qe,
    Enemy_stun duration sim = Ok sim' /\
    queue sim = pre ++ qe :: post /\
    Forall (fun e => is_enemy_entry e = false) pre /\
    is_enemy_entry qe = true /\
    hunter sim' = hunter sim /\
    queue sim' ≡ₚ (fst (fst qe) + duration, snd (fst qe), snd qe) :: pre ++ post /\
    (is_heap entry_ltb (pre ++ post) = true -> is_heap entry_ltb (queue sim') = true).
Proof.
  intros Hne.
  destruct (List.filter is_enemy_entry (queue sim)) as [|qe rest] eqn:Hf;
    [congruence|].
  destruct (first_enemy_split _ _ _ Hf) as (pre & post & Hq & Hpre & Hqe).
  destruct (stun_entries duration sim pre post qe Hq Hpre Hqe)
    as (sim' & Hok & Hh & Hperm & _ & Hheap).
  exists sim', pre, post, qe. repeat split; assumption.
Qed.

Lemma on_death_no_enemy_left (sim : Sim) :
  List.filter is_enemy_entry (queue (Enemy_on_death sim)) = [].
Proof.
  apply filter_no_enemy. rewrite List.Forall_forall. intros e Hin.
  rewrite Enemy_on_death_queue in Hin.
  destruct (heapify_queue_heap
              (List.filter (fun e => negb (is_enemy_entry e)) (queue sim)))
    as [_ Hperm].
  apply (Permutation_in _ Hperm) in Hin. apply filter_In in Hin.
  now apply negb_true_iff.
Qed.

(** X12.  [stun] fails exactly when the queue holds no "enemy" entry, with
    [IndexError]; otherwise it returns, keeps the length of the queue and
    never raises the [ValueError] of [list.remove].  After [on_death] a stun
    therefore always raises [IndexError]. *)
Theorem stun_error_behaviour (duration : Q) (sim : Sim) :
  (List.filter is_enemy_entry (queue sim) = [] ->
     Enemy_stun duration sim = Raise IndexError) /\
  (List.filter is_enemy_entry (queue sim) <> [] ->
     exists sim', Enemy_stun duration sim = Ok sim' /\
                  length (queue sim') = length (queue sim) /\
                  hunter sim' = hunter sim) /\
  Enemy_stun duration sim <> Raise ValueError /\
  Enemy_stun duration (Enemy_on_death sim) = Raise IndexError.
Proof.
  assert (Hnone : forall s, List.filter is_enemy_entry (queue s) = [] ->
                            Enemy_stun duration s = Raise IndexError).
  { intros s H. unfold Enemy_stun. now rewrite H. }
  split; [apply Hnone|]. split; [|split].
  - intros Hne.
    destruct (stun_ok_of_enemy duration sim Hne)
      as (sim' & pre & post & qe & Hok & Hq & _ & _ & Hh & Hperm & _).
    exists sim'. split; [exact Hok|]. split; [|exact Hh].
    rewrite (Permutation_length Hperm), Hq. cbn. rewrite !length_app. cbn. lia.
  - destruct (List.filter is_enemy_entry (queue sim)) as [|qe rest] eqn:Hf.
    + rewrite (Hnone sim Hf). discriminate.
    + destruct (stun_ok_of_enemy duration sim ltac:(rewrite Hf; discriminate))
        as (sim' & _ & _ & _ & -> & _). discriminate.
  - apply Hnone. apply on_death_no_enemy_left.
Qed.

(** X13.  [stun] does leave a min-heap in two situations: when the queue
    has at most two entries, and when the queue is a heap and its "enemy"
    entry is the last element of the list. *)
Theorem stun_keeps_heap_cases (duration : Q) (sim : Sim) :
  ((length (queue sim) <= 2)%nat ->
   List.filter is_enemy_entry (queue sim) <> [] ->
   exists sim', Enemy_stun duration sim = Ok sim' /\
                is_heap entry_ltb (queue sim') = true) /\
  (forall pre qe,
     queue sim = pre ++ [qe] ->
     Forall (fun e => is_enemy_entry e = false) pre ->
     is_enemy_entry qe = true ->
     is_heap entry_ltb (queue sim) = true ->
     exists sim', Enemy_stun duration sim = Ok sim' /\
                  is_heap entry_ltb (queue sim') = true).
Proof.
  split.
  - intros Hlen Hne.
    destruct (stun_ok_of_enemy duration sim Hne)
      as (sim' & pre & post & qe & Hok & Hq & _ & _ & _ & _ & Hheap).
    exists sim'. split; [exact Hok|]. apply Hheap. apply is_heap_short.
    rewrite Hq in Hlen. rewrite !length_app in *. cbn in Hlen. lia.
  - intros pre qe Hq Hpre Hqe Hheap.
    destruct (stun_entries duration sim pre [] qe Hq Hpre Hqe)
      as (sim' & Hok & _ & _ & _ & Hkeep).
    exists sim'. split; [exact Hok|]. apply Hkeep.
    rewrite app_nil_r. apply (is_heap_iff entry_ltb).
    apply (heap_from_prefix entry_ltb pre [qe]).
    apply (is_heap_iff entry_ltb). now rewrite <- Hq.
Qed.

Lemma stun_keeps_heap_cases_witness :
  (length (queue a_small_sim) <= 2)%nat /\
  List.filter is_enemy_entry (queue a_small_sim) <> [] /\
  exists sim', Enemy_stun 3 a_small_sim = Ok sim' /\
               is_heap entry_ltb (queue sim') = true.
Proof.
  assert (H1 : (length (queue a_small_sim) <= 2)%nat) by (cbn; lia).
  assert (H2 : List.filter is_enemy_entry (queue a_small_sim) <> [])
    by (cbn; discriminate).
  split; [exact H1|]. split; [exact H2|].
  exact (proj1 (stun_keeps_heap_cases 3 a_small_sim) H1 H2).
Defined.

(** X14.  After [on_death] the first entry of the queue is a minimum: no
    entry left in the queue compares below it, so the next pop is the
    earliest remaining event. *)
Theorem on_death_head_is_minimum (sim : Sim) (m e : entry) :
  queue (Enemy_on_death sim) !! 0%nat = Some m ->
  In e (queue (Enemy_on_death sim)) ->
  entry_ltb e m = false.
Proof.
  intros Hm Hin.
  rewrite Enemy_on_death_queue in Hm, Hin.
  destruct (heapify_queue_heap
              (List.filter (fun e => negb (is_enemy_entry e)) (queue sim)))
    as [Hheap _].
  apply (is_heap_iff entry_ltb) in Hheap.
  apply list_elem_of_In in Hin. apply list_elem_of_lookup in Hin as [i Hi].
  exact (heap_root_min entry_ltb entry_ltb_irrefl entry_le_trans _ m Hheap Hm i e Hi).
Qed.

Lemma on_death_head_is_minimum_witness :
  queue (Enemy_on_death a_sim) !! 0%nat = Some (11, 3%Z, "regen"%string) /\
  In (12, 1%Z, "hunter"%string) (queue (Enemy_on_death a_sim)) /\
  entry_ltb (12, 1%Z, "hunter"%string) (11, 3%Z, "regen"%string) = false.
Proof.
  assert (H1 : queue (Enemy_on_death a_sim) !! 0%nat = Some (11, 3%Z, "regen"%string))
    by reflexivity.
  assert (H2 : In (12, 1%Z, "hunter"%string) (queue (Enemy_on_death a_sim)))
    by (right; left; reflexivity).
  split; [exact H1|]. split; [exact H2|].
  exact (on_death_head_is_minimum a_sim _ _ H1 H2).
Defined.

Lemma filter_all (P : entry -> bool) (l : list entry) :
  Forall (fun e => P e = true) l -> List.filter P l = l.
Proof.
  induction 1 as [|e l He _ IH]; [reflexivity|].
  cbn [List.filter]. now rewrite He, IH.
Qed.

(** X15.  Running [on_death] a second time counts a second kill but leaves
    the entries of the queue as the first run left them, still as a heap. *)
Theorem on_death_twice (sim : Sim) :
  total_kills (hunter (Enemy_on_death (Enemy_on_death sim)))
    = (total_kills (hunter sim) + 2)%Z /\
  queue (Enemy_on_death (Enemy_on_death sim)) ≡ₚ queue (Enemy_on_death sim) /\
  is_heap entry_ltb (queue (Enemy_on_death (Enemy_on_death sim))) = true.
Proof.
  split; [cbn; lia|].
  rewrite (Enemy_on_death_queue (Enemy_on_death sim)).
  destruct (heapify_queue_heap
              (List.filter (fun e => negb (is_enemy_entry e))
                 (queue (Enemy_on_death sim)))) as [Hheap Hperm].
  split; [|exact Hheap].
  rewrite Hperm. rewrite filter_all; [reflexivity|].
  rewrite List.Forall_forall. intros e Hin.
  pose proof (on_death_no_enemy_left sim) as Hnone.
  destruct (is_enemy_entry e) eqn:He; [|reflexivity].
  assert (Hf : In e (List.filter is_enemy_entry (queue (Enemy_on_death sim))))
    by (apply filter_In; split; assumption).
  rewrite Hnone in Hf. destruct Hf.
Qed.

(** ** Boss enrage over many attacks *)

Lemma Enemy_on_create_keeps_speed
    (pog ood snek medusa : Hunter -> Enemy -> Enemy) (hunter : Hunter) (self : Enemy) :
  (forall f, In f [pog; ood; snek; medusa] -> forall h e, speed (f h e) = speed e) ->
  speed (Enemy_on_create pog ood snek medusa hunter self) = speed self.
Proof.
  intros Hhooks. unfold Enemy_on_create.
  repeat match goal with
  | |- context [if ?c then _ else _] => destruct c
  end;
  repeat match goal with
  | |- context [speed (?f ?h ?e)] => rewrite (Hhooks f ltac:(simpl; tauto) h e)
  end; reflexivity.
Qed.

Lemma Boss_attacks_speed_slot (b : Boss) (n : nat) (g : Rng) :
  enrage_stacks b = 0%Z -> max_enrage b = false ->
  enrage_stacks (fst (Boss_attacks n b g)) = Z.of_nat n /\
  enrage_effect (fst (Boss_attacks n b g)) = enrage_effect b /\
  speed (boss_unit (fst (Boss_attacks n b g))) = speed (boss_unit b).
Proof.
  intros H0 Hmax.
  assert (Hstart : enrage_trace b 0 b).
  { unfold enrage_trace. repeat split; try assumption; lia. }
  destruct (enrage_trace_attacks b n b 0 g Hstart) as (Hk & He & Hlow & Hhigh).
  split; [rewrite Hk; lia|]. split; [exact He|].
  destruct (Z.lt_ge_cases (0 + Z.of_nat n) 200) as [Hlt|Hge].
  - now destruct (Hlow Hlt) as [_ ->].
  - now destruct (Hhigh Hge) as [_ ->].
Qed.

(** X16.  A boss built by [Boss.__init__] (with hooks that leave its speed
    alone) slows its action interval with every attack and sits on the floor
    0.5 from its 190th attack on, not earlier, for Borge and for Ozzy: the
    floor is reached before max enrage at 200. *)
Theorem boss_speed_floor_after_190
    (pog ood snek medusa : Hunter -> Enemy -> Enemy)
    (name : string) (hunter : Hunter) (stage : Z) (self : Boss) (n : nat) (g : Rng) :
  (forall f, In f [pog; ood; snek; medusa] -> forall h e, speed (f h e) = speed e) ->
  Boss_init pog ood snek medusa name hunter stage = Ok self ->
  (Boss_speed (fst (Boss_attacks n self g)) == 0.5 <-> (190 <= n)%nat) /\
  Boss_speed (fst (Boss_attacks (S n) self g)) <= Boss_speed (fst (Boss_attacks n self g)).
Proof.
  intros Hhooks. unfold Boss_init, Boss_fetch_stats.
  destruct (hunter_cls hunter); [| |discriminate]; intros [= <-];
    match goal with
    | |- context [Boss_attacks n ?b g] =>
        destruct (Boss_attacks_speed_slot b n g eq_refl eq_refl) as (Hk & He & Hs);
        destruct (Boss_attacks_speed_slot b (S n) g eq_refl eq_refl) as (Hk' & He' & Hs')
    end;
    unfold Boss_speed; rewrite Hk, He, Hs, Hk', He', Hs';
    cbn [boss_unit enrage_effect];
    rewrite (Enemy_on_create_keeps_speed pog ood snek medusa hunter _ Hhooks);
    cbn [speed Enemy_create st_speed];
    assert (Hn0 := inject_Z_le 0 (Z.of_nat n) ltac:(lia));
    assert (Hn1 := inject_Z_le (Z.of_nat n) (Z.of_nat (S n)) ltac:(lia));
    change (inject_Z 0) with 0 in Hn0;
    (split; [split|]).
  all: try (intros Hfloor;
            destruct (Nat.le_gt_cases 190 n) as [Hge|Hlt]; [exact Hge|];
            assert (Hq := inject_Z_le (Z.of_nat n) 189 ltac:(lia));
            change (inject_Z 189) with 189 in Hq;
            match type of Hfloor with
            | py_max ?a ?b == _ =>
                destruct (py_max_spec a b) as [[? Hm]|[? Hm]]; rewrite Hm in Hfloor
            end; lra).
  all: try (intros Hge;
            assert (Hq := inject_Z_le 190 (Z.of_nat n) ltac:(lia));
            change (inject_Z 190) with 190 in Hq;
            match goal with
            | |- py_max ?a ?b == _ =>
                destruct (py_max_spec a b) as [[? ->]|[? ->]]
            end; lra).
  all: match goal with
       | |- py_max ?a ?b <= py_max ?c ?d =>
           destruct (py_max_spec a b) as [[? ->]|[? ->]];
           destruct (py_max_spec c d) as [[? ->]|[? ->]]
       end; lra.
Qed.

Lemma boss_speed_floor_after_190_witness :
  (forall f, In f [no_hook; no_hook; no_hook; no_hook] ->
     forall h e, speed (f h e) = speed e) /\
  Boss_init no_hook no_hook no_hook no_hook "B100" an_ozzy 100 = Ok
    (mkBoss (Enemy_create "B100" (mkStats 29328 229.05 59.52 0.3094 1.83 0.05 0.01 6.87))
       0 false 0.033658536585365856) /\
  Boss_speed (fst (Boss_attacks 190
     (mkBoss (Enemy_create "B100" (mkStats 29328 229.05 59.52 0.3094 1.83 0.05 0.01 6.87))
        0 false 0.033658536585365856) a_rng)) == 0.5.
Proof.
  assert (H1 : forall f, In f [no_hook; no_hook; no_hook; no_hook] ->
                 forall h e, speed (f h e) = speed e).
  { intros f Hf h e. cbn in Hf.
    destruct Hf as [<-|[<-|[<-|[<-|[]]]]]; reflexivity. }
  assert (H2 : Boss_init no_hook no_hook no_hook no_hook "B100" an_ozzy 100 = Ok
    (mkBoss (Enemy_create "B100" (mkStats 29328 229.05 59.52 0.3094 1.83 0.05 0.01 6.87))
       0 false 0.033658536585365856)) by reflexivity.
  split; [exact H1|]. split; [exact H2|].
  apply (proj1 (boss_speed_floor_after_190 no_hook no_hook no_hook no_hook
                  "B100" an_ozzy 100 _ 190 a_rng H1 H2)).
  lia.
Defined.

(** X17.  Once a boss that started without stacks has attacked 200 times or
    more, each further attack whose sample is below 1 is a special hit and
    passes [3 * power * special_damage] of the original unit to the hunter. *)
Theorem enraged_boss_always_special (self : Boss) (n : nat) (g : Rng) :
  enrage_stacks self = 0%Z -> max_enrage self = false -> (200 <= n)%nat ->
  samples (snd (Boss_attacks n self g)) (cursor (snd (Boss_attacks n self g))) < 1 ->
  fst (fst (Boss_attack (fst (Boss_attacks n self g)) (snd (Boss_attacks n self g))))
    = (power (boss_unit self) * 3 * special_damage (boss_unit self), true).
Proof.
  intros H0 Hmax Hn Hr.
  assert (Hstart : enrage_trace self 0 self).
  { unfold enrage_trace. repeat split; try assumption; lia. }
  destruct (enrage_trace_attacks self n self 0 g Hstart) as (_ & _ & _ & Hhigh).
  destruct (Hhigh ltac:(lia)) as [_ Hunit].
  destruct (Boss_attacks n self g) as [b' g']. cbn [fst snd] in *.
  unfold Boss_attack, Enemy_attack, random. rewrite Hunit.
  cbn [special_chance power special_damage set_power_special_chance].
  apply Qltb_lt in Hr. rewrite Hr.
  destruct (_ && _)%bool; reflexivity.
Qed.

Lemma enraged_boss_always_special_witness :
  enrage_stacks a_boss = 0%Z /\ max_enrage a_boss = false /\ (200 <= 200)%nat /\
  samples (snd (Boss_attacks 200 a_boss a_rng))
    (cursor (snd (Boss_attacks 200 a_boss a_rng))) < 1 /\
  fst (fst (Boss_attack (fst (Boss_attacks 200 a_boss a_rng))
              (snd (Boss_attacks 200 a_boss a_rng))))
    = (263.18 * 3 * 2.26, true).
Proof.
  assert (H : samples (snd (Boss_attacks 200 a_boss a_rng))
                (cursor (snd (Boss_attacks 200 a_boss a_rng))) < 1)
    by (vm_compute; reflexivity).
  split; [reflexivity|]. split; [reflexivity|]. split; [lia|]. split; [exact H|].
  exact (enraged_boss_always_special a_boss 200 a_rng eq_refl eq_refl ltac:(lia) H).
Defined.

(** X18.  [Boss.attack] hits before it enrages: each of the first 200
    attacks of a boss that started without stacks, the 200th included,
    passes the damage of the original unit to the hunter; the 200th attack
    sets [max_enrage], and the tripled power is first used by the 201st. *)
Theorem latching_attack_hits_unenraged (self : Boss) (n : nat) (g : Rng) :
  enrage_stacks self = 0%Z -> max_enrage self = false -> (n < 200)%nat ->
  fst (fst (Boss_attack (fst (Boss_attacks n self g)) (snd (Boss_attacks n self g))))
    = fst (Enemy_attack (boss_unit self) (snd (Boss_attacks n self g))) /\
  (max_enrage (snd (fst (Boss_attack (fst (Boss_attacks n self g))
                           (snd (Boss_attacks n self g))))) = true
     <-> n = 199%nat).
Proof.
  intros H0 Hmax Hn.
  assert (Hstart : enrage_trace self 0 self).
  { unfold enrage_trace. repeat split; try assumption; lia. }
  destruct (enrage_trace_attacks self n self 0 g Hstart) as (Hk & _ & Hlow & _).
  destruct (Hlow ltac:(lia)) as [Hm Hunit].
  destruct (Boss_attacks n self g) as [b' g']. cbn [fst snd] in *.
  split.
  - unfold Boss_attack. rewrite Hunit.
    destruct (Enemy_attack (boss_unit self) g') as [[damage is_crit] g''].
    destruct (_ && _)%bool; reflexivity.
  - rewrite Boss_attack_boss, Hk, Hm, Z.geb_leb. cbn [negb].
    destruct (Z.leb_spec 200 (0 + Z.of_nat n + 1)) as [Hge|Hlt];
      cbn [andb max_enrage]; split; intros H; try lia; try reflexivity;
      try discriminate.
Qed.

Lemma latching_attack_hits_unenraged_witness :
  enrage_stacks a_boss = 0%Z /\ max_enrage a_boss = false /\ (199 < 200)%nat /\
  fst (fst (Boss_attack (fst (Boss_attacks 199 a_boss a_rng))
              (snd (Boss_attacks 199 a_boss a_rng))))
    = fst (Enemy_attack (boss_unit a_boss) (snd (Boss_attacks 199 a_boss a_rng))).
Proof.
  split; [reflexivity|]. split; [reflexivity|]. split; [lia|].
  exact (proj1 (latching_attack_hits_unenraged a_boss 199 a_rng
                  eq_refl eq_refl ltac:(lia))).
Defined.
